(** * serverless-access-roles-generator: a shallow embedding of
      [src/lib/utils.ts] and of the hooks of [src/index.ts].

    Conventions of the embedding.
    - A JavaScript string is a [string]; a character is an [ascii]
      (CloudFormation export names are made of ASCII letters, digits,
      colons and hyphens).
    - A value that may be [undefined] is an [option]; [None] is [undefined].
    - A function that may throw returns a [completion]: [Returned v] or
      [Threw e].
    - A plain object used as a dictionary is a [gmap string _]: its own
      properties, looked up by name; two such maps are equal when they have
      the same entries.  A loop [for (const key in object)] takes the object
      as the list of its entries, in the order of the enumeration.  The
      embedding is exact for property names other than ["__proto__"], which
      CloudFormation names cannot contain. *)

From Stdlib Require Import Ascii.
From Stdlib Require String.
From stdpp Require Import gmap strings list fin_maps pretty.

(** ** Completions: normal return or a thrown exception *)

Inductive exn : Type :=
  | Error (message : string)   (* [new Error(message)] *)
  | TypeError.                 (* raised by the engine on [undefined.m()] *)

Inductive completion (A : Type) : Type :=
  | Returned (a : A)
  | Threw (e : exn).
Arguments Returned {A} a.
Arguments Threw {A} e.

Global Instance completion_ret : MRet completion := @Returned.
Global Instance completion_bind : MBind completion := λ A B k c,
  match c with
  | Returned a => k a
  | Threw e => Threw e
  end.

Global Instance completion_fmap : FMap completion := λ A B f c,
  match c with
  | Returned a => Returned (f a)
  | Threw e => Threw e
  end.

(** [Array.prototype.map] with a callback that may throw is [mapM]: the
    elements are visited from left to right and the first exception
    escapes. *)

(** The loop [for (const x of xs) body], with the accumulated state [acc]. *)
Fixpoint forOf {A S} (body : S → A → completion S) (xs : list A) (acc : S)
  : completion S :=
  match xs with
  | [] => Returned acc
  | x :: xs' => acc' ← body acc x; forOf body xs' acc'
  end.

(** ** Strings *)

(** A template literal prints [undefined] as the text "undefined"; the same
    conversion gives the property name of a computed key. *)
Definition toString (v : option string) : string :=
  match v with
  | Some s => s
  | None => "undefined"
  end.

(** Truthiness of a string: every string but the empty one. *)
Definition truthy (s : string) : bool :=
  match s with
  | EmptyString => false
  | String _ _ => true
  end.

(** [s.split(sep)] for a one-character separator. *)
Fixpoint split (sep : ascii) (s : string) : list string :=
  match s with
  | EmptyString => [EmptyString]
  | String c r =>
      if Ascii.eqb c sep then EmptyString :: split sep r
      else match split sep r with
           | h :: t => String c h :: t
           | [] => [String c EmptyString]
           end
  end.

(** [parts.join('')] *)
Definition join (parts : list string) : string :=
  foldr String.append EmptyString parts.

Definition upcase (c : ascii) : ascii :=
  let n := nat_of_ascii c in
  if (97 <=? n)%nat && (n <=? 122)%nat then ascii_of_nat (n - 32) else c.

(** [s.toUpperCase()] *)
Fixpoint toUpperCase (s : string) : string :=
  match s with
  | EmptyString => EmptyString
  | String c r => String (upcase c) (toUpperCase r)
  end.

Fixpoint dropChars (n : nat) (s : string) : string :=
  match n, s with
  | O, _ => s
  | S n', String _ r => dropChars n' r
  | S _, EmptyString => EmptyString
  end.

(** [s.replace(pattern, replacement)] with a string pattern: the first
    occurrence of [pattern] is replaced.  (Replacement patterns need a [$]
    followed by another character, so a replacement of one character is
    taken literally.) *)
Fixpoint replace (pattern replacement s : string) : string :=
  if String.prefix pattern s
  then replacement +:+ dropChars (String.length pattern) s
  else match s with
       | EmptyString => EmptyString
       | String c r => String c (replace pattern replacement r)
       end.

(** [str[0]] *)
Definition firstCharOf (str : string) : option string :=
  match str with
  | EmptyString => None
  | String c _ => Some (String c EmptyString)
  end.

(** ** utils.ts: naming *)

Definition DEFAULT_EXPORT_PREFIX : string := "aser".
Definition DEFAULT_OUT_DIR : string := "dist/data".
Definition DEFAULT_OUT_FILENAME : string := "service-outputs.json".

(** [pascalCase]: [firstChar.toUpperCase()] is a method call on [undefined]
    when [str] is empty. *)
Definition pascalCase (str : string) : completion string :=
  match firstCharOf str with
  | None => Threw TypeError
  | Some firstChar => Returned (replace firstChar (toUpperCase firstChar) str)
  end.

Module ExportName.
Record t : Type := mk {
  prefix : option string;
  stackName : option string;
  name : option string;
  type : option string;
  resource : option string
}.
End ExportName.

Definition splitExportName (exportName : string) : ExportName.t :=
  let exportNameArray := split ":"%char exportName in
  {| ExportName.prefix := exportNameArray !! 0%nat;
     ExportName.stackName := exportNameArray !! 1%nat;
     ExportName.name := exportNameArray !! 2%nat;
     ExportName.type := exportNameArray !! 3%nat;
     ExportName.resource := exportNameArray !! 4%nat |}.

Module ExportKey.
Record t : Type := mk {
  stackName : string;
  name : string;
  type : string
}.
End ExportKey.

(** The three indices read after the arity test are within the array, so the
    last branch of the match is never taken. *)
Definition splitResourceExportKey (key : string) : completion ExportKey.t :=
  let exportKeyArray := split ":"%char key in
  if negb (length exportKeyArray =? 3)%nat
  then Threw (Error ("Incorrect resource export key: " +:+ key))
  else
    match exportKeyArray !! 0%nat, exportKeyArray !! 1%nat,
          exportKeyArray !! 2%nat with
    | Some s, Some n, Some t =>
        Returned {| ExportKey.stackName := s;
                    ExportKey.name := n;
                    ExportKey.type := t |}
    | _, _, _ => Threw TypeError
    end.

(** The key of a pending resource, [`${stackName}:${name}:${type}`]. *)
Definition resourceExportKey (stackName name type : option string) : string :=
  toString stackName +:+ ":" +:+ toString name +:+ ":" +:+ toString type.

Definition generateIamRoleResourceLogicalName
    (stackName name type : string) (postfix : option string) : completion string :=
  let postfix := default "AccessRole" postfix in
  words ← mapM pascalCase (split "-"%char stackName);
  let formattedStackName := join words in
  formattedName ← pascalCase name;
  formattedType ← pascalCase type;
  Returned (formattedStackName +:+ formattedName +:+ formattedType +:+ postfix).

(** ** The records of [type/serverless-access-roles-generator.ts] *)

Module PrincipalInfo.
Record t : Type := mk {
  principalAccountId : string;
  principalRoleName : string;
  externalId : string
}.
End PrincipalInfo.

Module AccessRolesGenerator.
Record t : Type := mk {
  principalAccountId : string;
  principalRoleName : string;
  externalId : string;
  exportPrefix : string;
  outDir : string;
  outFilename : string
}.
End AccessRolesGenerator.

Module StackExport.
Record t : Type := mk {
  ExportingStackId : string;
  Name : string;
  Value : string
}.
End StackExport.

Module ResourceExport.
Record t : Type := mk {
  arn : string;
  description : string;
  roleOutputKey : string
}.

Definition setArn (v : string) (r : t) : t :=
  {| arn := v; description := description r;
     roleOutputKey := roleOutputKey r |}.
Definition setDescription (v : string) (r : t) : t :=
  {| arn := arn r; description := v; roleOutputKey := roleOutputKey r |}.
Definition setRoleOutputKey (v : string) (r : t) : t :=
  {| arn := arn r; description := description r; roleOutputKey := v |}.
End ResourceExport.

Module ResourceOutput.
Record t : Type := mk {
  arn : string;
  description : string;
  role : option string
}.
End ResourceOutput.

(** An output of a deployed stack, as [describeStacks] reports it; both
    fields are optional in the provider's declaration. *)
Module Output.
Record t : Type := mk {
  OutputKey : option string;
  OutputValue : option string
}.
End Output.

(** ** utils.ts: from the exports to the pending resources *)

Definition emptyResourceExport : ResourceExport.t :=
  {| ResourceExport.arn := "";
     ResourceExport.description := "";
     ResourceExport.roleOutputKey := "" |}.

(** One turn of the loop of [collectResourceExportsByPrefix]. *)
Definition collectExport (exportPrefix : string)
    (resources : gmap string ResourceExport.t) (e : StackExport.t)
  : gmap string ResourceExport.t :=
  let x := splitExportName (StackExport.Name e) in
  if decide (ExportName.prefix x = Some exportPrefix) then
    let key := resourceExportKey (ExportName.stackName x) (ExportName.name x)
                 (ExportName.type x) in
    let resources :=
      match resources !! key with
      | None => <[key := emptyResourceExport]> resources
      | Some _ => resources
      end in
    let resources :=
      if decide (ExportName.resource x = Some "arn")
      then alter (ResourceExport.setArn (StackExport.Value e)) key resources
      else resources in
    if decide (ExportName.resource x = Some "description")
    then alter (ResourceExport.setDescription (StackExport.Value e)) key resources
    else resources
  else resources.

Definition collectResourceExportsByPrefix (exportPrefix : string)
    (exports : list StackExport.t) : gmap string ResourceExport.t :=
  foldl (collectExport exportPrefix) ∅ exports.

(** ** utils.ts: policy statements *)

Inductive resourceRef : Type :=
  | Arn (arn : string)            (* a plain string *)
  | FnSub (template : string).    (* [{ 'Fn::Sub': template }] *)

Inductive statementResource : Type :=
  | One (r : resourceRef)
  | Many (rs : list resourceRef).

Module IamRoleStatement.
Record t : Type := mk {
  Effect : string;
  Action : list string;
  Resource : statementResource
}.
End IamRoleStatement.

(** [array[i]] for an integer [i]: an array has no element at a negative
    index, and the read yields [undefined]. *)
Definition at_index {A} (array : list A) (i : Z) : option A :=
  if (i <? 0)%Z then None else array !! Z.to_nat i.

Definition defaultLambdaFunctionPolicyStatements
    (functionArn : string) (logGroupArn : option string)
  : list IamRoleStatement.t :=
  let statements :=
    [ {| IamRoleStatement.Effect := "Allow";
         IamRoleStatement.Action := ["lambda:InvokeFunction"];
         IamRoleStatement.Resource := One (Arn functionArn) |} ] in
  match logGroupArn with
  | Some lg =>
      if truthy lg
      then statements ++
           [ {| IamRoleStatement.Effect := "Allow";
                IamRoleStatement.Action :=
                  ["logs:DescribeLogStreams"; "logs:GetLogEvents"];
                IamRoleStatement.Resource := One (Arn lg) |} ]
      else statements
  | None => statements
  end.

Definition defaultStateMachinePolicyStatements (arn : string)
  : list IamRoleStatement.t :=
  let name := at_index (split ":"%char arn) (-1) in
  [ {| IamRoleStatement.Effect := "Allow";
       IamRoleStatement.Action :=
         ["states:ListExecutions"; "states:StartExecution"];
       IamRoleStatement.Resource := One (Arn arn) |};
    {| IamRoleStatement.Effect := "Allow";
       IamRoleStatement.Action := ["states:DescribeExecution"];
       IamRoleStatement.Resource :=
         Many
           [ FnSub ("arn:aws:states:${AWS::Region}:${AWS::AccountId}:execution:"
                      +:+ toString name +:+ ":*");
             FnSub ("arn:aws:states:${AWS::Region}:${AWS::AccountId}:express:"
                      +:+ toString name +:+ ":*:*") ] |};
    {| IamRoleStatement.Effect := "Allow";
       IamRoleStatement.Action := ["states:StopExecution"];
       IamRoleStatement.Resource :=
         One (FnSub ("arn:aws:states:${AWS::Region}:${AWS::AccountId}:execution:"
                       +:+ toString name +:+ ":*")) |} ].

Definition generatePolicyStatementsByType (arn type : string)
  : list IamRoleStatement.t :=
  if decide (type = "function")
  then defaultLambdaFunctionPolicyStatements arn None
  else if decide (type = "stateMachine")
  then defaultStateMachinePolicyStatements arn
  else [].

(** ** utils.ts: the role and its output *)

Module TrustStatement.
Record t : Type := mk {
  Effect : string;
  Action : list string;
  Principal_AWS : string;                       (* [Principal: { AWS }] *)
  Condition : gmap string (gmap string string)
}.
End TrustStatement.

Module TrustPolicy.
Record t : Type := mk {
  Version : string;
  Statement : TrustStatement.t
}.
End TrustPolicy.

Module PolicyDocument.
Record t : Type := mk {
  Version : string;
  Statement : list IamRoleStatement.t
}.
End PolicyDocument.

Module Policy.
Record t : Type := mk {
  PolicyName : string;
  PolicyDocument : PolicyDocument.t
}.
End Policy.

Module RoleProperties.
Record t : Type := mk {
  RoleName : string;
  Description : string;
  AssumeRolePolicyDocument : TrustPolicy.t;
  Policies : list Policy.t
}.
End RoleProperties.

Module CloudFormationResource.
Record t : Type := mk {
  Type_ : string;
  Properties : RoleProperties.t
}.
End CloudFormationResource.

Module RoleOutput.
Record t : Type := mk {
  Description : string;
  Value_GetAtt : list string                    (* [{ 'Fn::GetAtt': [..] }] *)
}.
End RoleOutput.

Definition generateAccessRoleResource (stackName name : string)
    (principalInfo : PrincipalInfo.t)
    (policyStatements : list IamRoleStatement.t) : CloudFormationResource.t :=
  {| CloudFormationResource.Type_ := "AWS::IAM::Role";
     CloudFormationResource.Properties :=
       {| RoleProperties.RoleName := stackName +:+ "-" +:+ name;
          RoleProperties.Description :=
            "Access role to " +:+ name +:+ " of " +:+ stackName;
          RoleProperties.AssumeRolePolicyDocument :=
            {| TrustPolicy.Version := "2012-10-17";
               TrustPolicy.Statement :=
                 {| TrustStatement.Effect := "Allow";
                    TrustStatement.Action := ["sts:AssumeRole"];
                    TrustStatement.Principal_AWS :=
                      "arn:aws:sts::"
                        +:+ PrincipalInfo.principalAccountId principalInfo
                        +:+ ":assumed-role/"
                        +:+ PrincipalInfo.principalRoleName principalInfo
                        +:+ "/CognitoIdentityCredentials";
                    TrustStatement.Condition :=
                      {[ "StringEquals" :=
                           {[ "sts:ExternalId" :=
                                PrincipalInfo.externalId principalInfo ]} ]}
                 |} |};
          RoleProperties.Policies :=
            [ {| Policy.PolicyName := "EmbeddedInlinePolicy";
                 Policy.PolicyDocument :=
                   {| PolicyDocument.Version := "2012-10-17";
                      PolicyDocument.Statement := policyStatements |} |} ]
       |} |}.

Definition generateAccessRoleOutput (stackName name logicalName : string)
  : RoleOutput.t :=
  {| RoleOutput.Description :=
       "Arn of " +:+ stackName +:+ "-" +:+ name +:+ " access role";
     RoleOutput.Value_GetAtt := [logicalName; "Arn"] |}.

(** ** utils.ts: from the stack outputs to the manifest *)

(** One turn of the loop of [collectAccessRolesArnFromStackOutputs], for the
    property [key] of [resourceExports] and its value. *)
Definition collectAccessRole (stackOutputs : list Output.t)
    (resourceOutputs : gmap string (gmap string ResourceOutput.t))
    (entry : string * ResourceExport.t)
  : completion (gmap string (gmap string ResourceOutput.t)) :=
  let '(key, resourceExport) := entry in
  let stackName := toString (split ":"%char key !! 0%nat) in
  let fullName := toString (split ":"%char key !! 1%nat) in
  let roleOutputKey := ResourceExport.roleOutputKey resourceExport in
  let cfnRoleOutput :=
    filter (λ output, Output.OutputKey output = Some roleOutputKey)
      stackOutputs !! 0%nat in
  match cfnRoleOutput with
  | None => Threw (Error ("Unable to find output: " +:+ roleOutputKey))
  | Some cfnRoleOutput =>
      let temp : gmap string ResourceOutput.t :=
        {[ fullName :=
             {| ResourceOutput.arn := ResourceExport.arn resourceExport;
                ResourceOutput.description :=
                  ResourceExport.description resourceExport;
                ResourceOutput.role := Output.OutputValue cfnRoleOutput |} ]} in
      let resourceOutputs :=
        match resourceOutputs !! stackName with
        | None => <[stackName := ∅]> resourceOutputs
        | Some _ => resourceOutputs
        end in
      (* [{ ...resourceOutputs[stackName], ...temp }]: the later spread wins *)
      Returned (<[stackName := temp ∪ default ∅ (resourceOutputs !! stackName)]>
                  resourceOutputs)
  end.

(** [resourceExports] is given as the list of its entries, in the order in
    which [for (const key in resourceExports)] visits them. *)
Definition collectAccessRolesArnFromStackOutputs
    (stackOutputs : list Output.t)
    (resourceExports : list (string * ResourceExport.t))
  : completion (gmap string (gmap string ResourceOutput.t)) :=
  forOf (collectAccessRole stackOutputs) resourceExports ∅.

(** ** index.ts: the hooks of the plugin *)

Module AccessRoles.
Record t : Type := mk {
  resources : gmap string CloudFormationResource.t;
  outputs : gmap string RoleOutput.t;
  (* the entries of [this.resourceExports] visited so far, each with its
     [roleOutputKey] set *)
  resourceExports : list (string * ResourceExport.t)
}.
End AccessRoles.

(** One turn of the loop of [generateAccessRoles]. *)
Definition generateAccessRole (accessRolesGenerator : AccessRolesGenerator.t)
    (acc : AccessRoles.t) (entry : string * ResourceExport.t)
  : completion AccessRoles.t :=
  let '(key, resource) := entry in
  k ← splitResourceExportKey key;
  let stackName := ExportKey.stackName k in
  let name := ExportKey.name k in
  let type := ExportKey.type k in
  logicalName ← generateIamRoleResourceLogicalName stackName name type None;
  let role :=
    generateAccessRoleResource stackName name
      {| PrincipalInfo.principalAccountId :=
           AccessRolesGenerator.principalAccountId accessRolesGenerator;
         PrincipalInfo.principalRoleName :=
           AccessRolesGenerator.principalRoleName accessRolesGenerator;
         PrincipalInfo.externalId :=
           AccessRolesGenerator.externalId accessRolesGenerator |}
      (generatePolicyStatementsByType (ResourceExport.arn resource) type) in
  let outputKey := logicalName +:+ "Arn" in
  Returned
    {| AccessRoles.resources := <[logicalName := role]> (AccessRoles.resources acc);
       AccessRoles.outputs :=
         <[outputKey := generateAccessRoleOutput stackName name logicalName]>
           (AccessRoles.outputs acc);
       AccessRoles.resourceExports :=
         AccessRoles.resourceExports acc
           ++ [(key, ResourceExport.setRoleOutputKey outputKey resource)] |}.

Definition generateAccessRoles (accessRolesGenerator : AccessRolesGenerator.t)
    (resourceExports : list (string * ResourceExport.t))
  : completion AccessRoles.t :=
  forOf (generateAccessRole accessRolesGenerator) resourceExports
    {| AccessRoles.resources := ∅;
       AccessRoles.outputs := ∅;
       AccessRoles.resourceExports := [] |}.

Inductive logLine : Type :=
  | LogSuccess (text : string)
  | LogError (text : string).

(** What the [export] hook can change: the files on disk and the log. *)
Module World.
Record t : Type := mk {
  files : gmap string string;
  log : list logLine
}.
End World.

(** [error.toString()] *)
Definition exnToString (e : exn) : string :=
  match e with
  | Error message => "Error: " +:+ message
  | TypeError => "TypeError"
  end.

Section Hooks.
(** Collaborators of the host, taken as given. *)
Variable path_join : string → string → string.
Variable JSON_stringify : gmap string (gmap string ResourceOutput.t) → string.

Definition exportToFile (currentDir targetDir fileName data : string)
    (w : World.t) : World.t * string :=
  let outDir := path_join currentDir targetDir in
  let outPath := path_join outDir fileName in
  ({| World.files := <[outPath := data]> (World.files w);
      World.log := World.log w |}, outPath).

(** The [export] hook.  [describeStacks] is the outcome of the provider's
    request: an exception, or the [Outputs] of the stack.  Nothing is
    written or logged in the [try] block before its last two statements,
    which cannot throw here; so the block is a completion that carries
    the world it leaves. *)
Definition export (serviceName serviceDir : string)
    (accessRolesGenerator : AccessRolesGenerator.t)
    (describeStacks : completion (option (list Output.t)))
    (resourceExports : list (string * ResourceExport.t))
    (w : World.t) : World.t * completion unit :=
  let attempt : completion World.t :=
    outputs ← describeStacks;
    match outputs with
    | None => Threw (Error ("Unable to describe stack: " +:+ serviceName))
    | Some stackOutputs =>
        resourceOutputs ←
          collectAccessRolesArnFromStackOutputs stackOutputs resourceExports;
        let '(w', outFile) :=
          exportToFile serviceDir
            (AccessRolesGenerator.outDir accessRolesGenerator)
            (AccessRolesGenerator.outFilename accessRolesGenerator)
            (JSON_stringify resourceOutputs) w in
        Returned
          {| World.files := World.files w';
             World.log :=
               World.log w' ++
               [LogSuccess
                  ("Successfully export services information to: "
                     +:+ outFile)] |}
    end in
  match attempt with
  | Returned w' => (w', Returned ())
  | Threw error =>
      ({| World.files := World.files w;
          World.log := World.log w ++ [LogError (exnToString error)] |},
       Threw error)
  end.
End Hooks.

(** ** index.ts: configuration, discovery and the template *)

(** [custom.accessRolesGenerator] as the service file gives it: the schema
    requires the three principal fields and leaves the other three
    optional. *)
Module CustomConfig.
Record t : Type := mk {
  principalAccountId : string;
  principalRoleName : string;
  externalId : string;
  exportPrefix : option string;
  outDir : option string;
  outFilename : option string
}.
End CustomConfig.

(** A page of the provider's [listExports]. *)
Module ListExportData.
Record t : Type := mk {
  Exports : list StackExport.t;
  NextToken : option string
}.
End ListExportData.

(** [a || b] for an optional string [a]. *)
Definition orElse (a : option string) (b : string) : string :=
  match a with
  | Some s => if truthy s then s else b
  | None => b
  end.

(** [data.NextToken || null] *)
Definition nextTokenOf (data : ListExportData.t) : option string :=
  match ListExportData.NextToken data with
  | Some token => if truthy token then Some token else None
  | None => None
  end.

Section Provider.
(** The provider's answer to [listExports] for a pagination token ([None]
    for the first page): an exception, no data, or a page.  Requests are
    made with [useCache: true], so the answer depends on the token only. *)
Variable request : option string → completion (option ListExportData.t).

(** The [do ... while (nextToken)] loop of [listExports], entered with the
    exports gathered so far and the token of the page to ask for.  The loop
    has no bound of its own: [fuel] bounds the number of requests, and
    [None] says that the loop is still running after that many. *)
Fixpoint listExportsLoop (fuel : nat) (exports : list StackExport.t)
    (nextToken : option string) : option (completion (list StackExport.t)) :=
  match fuel with
  | O => None
  | S fuel' =>
      match request nextToken with
      | Threw error => Some (Threw error)
      | Returned None => Some (Threw (Error "Unable to list exports"))
      | Returned (Some data) =>
          let exports := exports ++ ListExportData.Exports data in
          match nextTokenOf data with
          | Some token => listExportsLoop fuel' exports (Some token)
          | None => Some (Returned exports)
          end
      end
  end.

(** [listExports]: the loop inside [try], and the [catch] that logs the
    error and throws it again. *)
Definition listExports (fuel : nat) (log : list logLine)
  : option (list logLine * completion (list StackExport.t)) :=
  match listExportsLoop fuel [] None with
  | None => None
  | Some (Returned exports) => Some (log, Returned exports)
  | Some (Threw error) =>
      Some (log ++ [LogError (exnToString error)], Threw error)
  end.

(** The [initialize] hook: it yields the configuration with its defaults
    and the pending resources.  Reading [exportPrefix] off a missing
    [custom.accessRolesGenerator] is a [TypeError]. *)
Definition initialize (fuel : nat) (custom : option CustomConfig.t)
    (log : list logLine)
  : option (list logLine
            * completion (AccessRolesGenerator.t
                          * gmap string ResourceExport.t)) :=
  match custom with
  | None => Some (log, Threw TypeError)
  | Some accessRolesGenerator =>
      let accessRolesGenerator :=
        {| AccessRolesGenerator.principalAccountId :=
             CustomConfig.principalAccountId accessRolesGenerator;
           AccessRolesGenerator.principalRoleName :=
             CustomConfig.principalRoleName accessRolesGenerator;
           AccessRolesGenerator.externalId :=
             CustomConfig.externalId accessRolesGenerator;
           AccessRolesGenerator.exportPrefix :=
             orElse (CustomConfig.exportPrefix accessRolesGenerator)
               DEFAULT_EXPORT_PREFIX;
           AccessRolesGenerator.outDir := DEFAULT_OUT_DIR;
           AccessRolesGenerator.outFilename := DEFAULT_OUT_FILENAME |} in
      match listExports fuel log with
      | None => None
      | Some (log, Threw error) => Some (log, Threw error)
      | Some (log, Returned exports) =>
          let resourceExports :=
            collectResourceExportsByPrefix
              (AccessRolesGenerator.exportPrefix accessRolesGenerator)
              exports in
          Some (log ++
                [LogSuccess ("Found " +:+ pretty (size resourceExports)
                               +:+ " exports from other stacks!")],
                Returned (accessRolesGenerator, resourceExports))
      end
  end.
End Provider.

(** [service.resources]: the declared resources and outputs, each possibly
    absent, and the other sections of the template.  A declared resource is
    one of the service's own, of some type [R], or an access role; likewise
    for the outputs. *)
Module ServiceResources.
Record t (R O X : Type) : Type := mk {
  Resources : option (gmap string (R + CloudFormationResource.t));
  Outputs : option (gmap string (O + RoleOutput.t));
  others : X
}.
Arguments mk {R O X} _ _ _.
Arguments Resources {R O X} _.
Arguments Outputs {R O X} _.
Arguments others {R O X} _.
End ServiceResources.

(** The [before:package:finalize] hook, [updateServerlessResources]: it
    yields the new [service.resources], the pending resources with their
    [roleOutputKey] set, and the log.  [service.resources] is read with a
    plain property access first, a [TypeError] when it is missing.  What the
    plugin holds after an exception is not described. *)
Definition updateServerlessResources {R O X : Type}
    (accessRolesGenerator : AccessRolesGenerator.t)
    (resourceExports : list (string * ResourceExport.t))
    (serviceResources : option (ServiceResources.t R O X))
    (log : list logLine)
  : completion (ServiceResources.t R O X
                * list (string * ResourceExport.t) * list logLine) :=
  match serviceResources with
  | None => Threw TypeError
  | Some serviceResources =>
      let originalResources :=
        default ∅ (ServiceResources.Resources serviceResources) in
      let originalOutputs :=
        default ∅ (ServiceResources.Outputs serviceResources) in
      roles ← generateAccessRoles accessRolesGenerator resourceExports;
      Returned
        (ServiceResources.mk
           (Some ((inr <$> AccessRoles.resources roles) ∪ originalResources))
           (Some ((inr <$> AccessRoles.outputs roles) ∪ originalOutputs))
           (ServiceResources.others serviceResources),
         AccessRoles.resourceExports roles,
         log ++ [LogSuccess "Successfully generate custom access roles!"])
  end.

(** * Vocabulary of the properties

    Definitions used to state the properties: what the specification calls
    things, written out, and the sample data of the examples. *)

(** ** Strings *)

(** [s.includes(c)] for a character [c]. *)
Fixpoint contains (c : ascii) (s : string) : bool :=
  match s with
  | EmptyString => false
  | String c' r => Ascii.eqb c' c || contains c r
  end.

(** ** Logical names *)

(** Pascal-casing as the specification words it: the first character in
    upper case, the rest unchanged. *)
Definition upperFirst (s : string) : string :=
  match s with
  | EmptyString => EmptyString
  | String c r => String (upcase c) r
  end.

(** The logical name as the specification words it. *)
Definition logicalName (stackName name type : string) : string :=
  join (upperFirst <$> split "-" stackName)
    +:+ upperFirst name +:+ upperFirst type +:+ "AccessRole".

(** ** State-machine ARNs *)

(** The name that the state-machine statements are meant to embed: the last
    colon-separated segment of the ARN. *)
Definition lastSegment (arn : string) : option string :=
  last (split ":" arn).

(** ** Exports and pending resources *)

Definition exportParts (e : StackExport.t) : ExportName.t :=
  splitExportName (StackExport.Name e).

Definition hasPrefix (exportPrefix : string) (e : StackExport.t) : Prop :=
  ExportName.prefix (exportParts e) = Some exportPrefix.

Definition exportField (e : StackExport.t) : option string :=
  ExportName.resource (exportParts e).

(** The decoded triple of an export and the key of the map it goes under. *)
Definition exportTriple (e : StackExport.t)
  : option string * option string * option string :=
  (ExportName.stackName (exportParts e), ExportName.name (exportParts e),
   ExportName.type (exportParts e)).

Definition exportKey (e : StackExport.t) : string :=
  resourceExportKey (ExportName.stackName (exportParts e))
    (ExportName.name (exportParts e)) (ExportName.type (exportParts e)).

Global Instance hasPrefix_dec p e : Decision (hasPrefix p e).
Proof. unfold hasPrefix. apply _. Defined.

(** What one export does to the entry under its key. *)
Definition applyField (e : StackExport.t) (r : ResourceExport.t)
  : ResourceExport.t :=
  let r :=
    if decide (exportField e = Some "arn")
    then ResourceExport.setArn (StackExport.Value e) r else r in
  if decide (exportField e = Some "description")
  then ResourceExport.setDescription (StackExport.Value e) r else r.

(** The exports of a list that go under the key [k]. *)
Definition relevant (p k : string) (l : list StackExport.t) : list StackExport.t :=
  filter (λ e, hasPrefix p e ∧ exportKey e = k) l.

(** The value of the last export of a list for the field [field]. *)
Definition fieldValue (field : string) (es : list StackExport.t) : string :=
  default "" (last (StackExport.Value <$>
                      filter (λ e, exportField e = Some field) es)).

Definition pendingOf (es : list StackExport.t) : option ResourceExport.t :=
  match es with
  | [] => None
  | _ :: _ =>
      Some {| ResourceExport.arn := fieldValue "arn" es;
              ResourceExport.description := fieldValue "description" es;
              ResourceExport.roleOutputKey := "" |}
  end.

(** Sample exports. *)

Definition arnExport : StackExport.t :=
  {| StackExport.ExportingStackId := "stack/1";
     StackExport.Name := "aser:orders:createOrder:function:arn";
     StackExport.Value := "arn:aws:lambda:ap-southeast-2:1234:function:createOrder" |}.

Definition descriptionExport : StackExport.t :=
  {| StackExport.ExportingStackId := "stack/1";
     StackExport.Name := "aser:orders:createOrder:function:description";
     StackExport.Value := "desc" |}.

Definition urlExport : StackExport.t :=
  {| StackExport.ExportingStackId := "stack/1";
     StackExport.Name := "aser:orders:createOrder:function:url";
     StackExport.Value := "https://example.org" |}.

Definition foreignExport : StackExport.t :=
  {| StackExport.ExportingStackId := "stack/2";
     StackExport.Name := "vpc:network:subnet:id:arn";
     StackExport.Value := "subnet-1" |}.

(** Well-formed exports and their triples. *)

(** An export name of five fields, the first of which is the prefix. *)
Definition wellFormed (p : string) (e : StackExport.t) : Prop :=
  length (split ":" (StackExport.Name e)) = 5 ∧ hasPrefix p e.

(** The number of exports of [l] for the field [field] of the triple [t]. *)
Definition fieldCount (field : string)
    (t : option string * option string * option string)
    (l : list StackExport.t) : nat :=
  length (filter (λ e, exportTriple e = t ∧ exportField e = Some field) l).

Definition atMostOnePerField (l : list StackExport.t) : Prop :=
  Forall (λ e, fieldCount "arn" (exportTriple e) l ≤ 1
               ∧ fieldCount "description" (exportTriple e) l ≤ 1) l.

Definition keyOfTriple (t : option string * option string * option string)
  : string :=
  resourceExportKey t.1.1 t.1.2 t.2.

Definition decodeTriple (k : string)
  : option string * option string * option string :=
  (split ":" k !! 0%nat, split ":" k !! 1%nat, split ":" k !! 2%nat).

(** ** The manifest *)

(** The stack and the resource name that a pending key files its entry
    under. *)
Definition stackOf (key : string) : string := toString (split ":" key !! 0%nat).
Definition nameOf (key : string) : string := toString (split ":" key !! 1%nat).

Definition placeOf (entry : string * ResourceExport.t) : string * string :=
  (stackOf entry.1, nameOf entry.1).

(** The first output with a given key. *)
Definition findOutput (stackOutputs : list Output.t) (roleOutputKey : string)
  : option Output.t :=
  filter (λ output, Output.OutputKey output = Some roleOutputKey)
    stackOutputs !! 0%nat.

(** Some output has the [roleOutputKey] of the pending resource as its key. *)
Definition hasOutput (stackOutputs : list Output.t)
    (entry : string * ResourceExport.t) : Prop :=
  Exists (λ output, Output.OutputKey output =
                      Some (ResourceExport.roleOutputKey entry.2))
    stackOutputs.

Global Instance hasOutput_dec stackOutputs entry :
  Decision (hasOutput stackOutputs entry).
Proof. unfold hasOutput. apply _. Defined.

(** The manifest entry of a pending resource. *)
Definition resourceOutputOf (stackOutputs : list Output.t)
    (entry : string * ResourceExport.t) : ResourceOutput.t :=
  {| ResourceOutput.arn := ResourceExport.arn entry.2;
     ResourceOutput.description := ResourceExport.description entry.2;
     ResourceOutput.role :=
       findOutput stackOutputs (ResourceExport.roleOutputKey entry.2)
         ≫= Output.OutputValue |}.

Definition addEntry (stackOutputs : list Output.t)
    (manifest : gmap string (gmap string ResourceOutput.t))
    (entry : string * ResourceExport.t)
  : gmap string (gmap string ResourceOutput.t) :=
  <[stackOf entry.1 :=
      <[nameOf entry.1 := resourceOutputOf stackOutputs entry]>
        (default ∅ (manifest !! stackOf entry.1))]> manifest.

Definition missingOutput (entry : string * ResourceExport.t) : exn :=
  Error ("Unable to find output: " +:+ ResourceExport.roleOutputKey entry.2).

(** A sample deployment. *)

Definition deployedOutputs : list Output.t :=
  [ {| Output.OutputKey := Some "ServerlessDeploymentBucketName";
       Output.OutputValue := Some "bucket" |};
    {| Output.OutputKey := Some "OrdersCreateOrderFunctionAccessRoleArn";
       Output.OutputValue := Some "arn:aws:iam::1234:role/orders-createOrder" |} ].

Definition pendingCreateOrder : string * ResourceExport.t :=
  ("orders:createOrder:function",
   {| ResourceExport.arn := "arn:aws:lambda:ap-southeast-2:1234:function:createOrder";
      ResourceExport.description := "desc";
      ResourceExport.roleOutputKey := "OrdersCreateOrderFunctionAccessRoleArn" |}).

Definition pendingCancelOrder : string * ResourceExport.t :=
  ("orders:cancelOrder:function",
   {| ResourceExport.arn := "arn:aws:lambda:ap-southeast-2:1234:function:cancelOrder";
      ResourceExport.description := "";
      ResourceExport.roleOutputKey := "OrdersCancelOrderFunctionAccessRoleArn" |}).

(** ** Further vocabulary: keys and export names *)

(** The number of occurrences of the character [c] in [s]. *)
Fixpoint countChar (c : ascii) (s : string) : nat :=
  match s with
  | EmptyString => 0
  | String c' r => (if Ascii.eqb c' c then 1 else 0) + countChar c r
  end.

(** [parts.join(sep)] for a one-character separator. *)
Fixpoint joinWith (sep : ascii) (parts : list string) : string :=
  match parts with
  | [] => EmptyString
  | [p] => p
  | p :: ps => p +:+ String sep (joinWith sep ps)
  end.

(** ** Further vocabulary: the generated roles *)

Definition typeOf (key : string) : string := toString (split ":" key !! 2%nat).

(** The keys on which the loop of [generateAccessRoles] does not throw: two
    colons, and no empty stack-name segment, name or type. *)
Definition keyAccepted (key : string) : Prop :=
  countChar ":" key = 2
  ∧ ("" ∉ split "-" (stackOf key)) ∧ nameOf key ≠ "" ∧ typeOf key ≠ "".

Global Instance keyAccepted_dec key : Decision (keyAccepted key).
Proof. unfold keyAccepted. apply _. Defined.

(** What the loop throws on a key that is not accepted. *)
Definition rejection (key : string) : exn :=
  if decide (countChar ":" key = 2) then TypeError
  else Error ("Incorrect resource export key: " +:+ key).

Definition logicalNameOf (key : string) : string :=
  logicalName (stackOf key) (nameOf key) (typeOf key).

Definition outputKeyOf (key : string) : string := logicalNameOf key +:+ "Arn".

Definition principalOf (g : AccessRolesGenerator.t) : PrincipalInfo.t :=
  {| PrincipalInfo.principalAccountId := AccessRolesGenerator.principalAccountId g;
     PrincipalInfo.principalRoleName := AccessRolesGenerator.principalRoleName g;
     PrincipalInfo.externalId := AccessRolesGenerator.externalId g |}.

(** The role and the output declared for a pending resource. *)
Definition roleOf (g : AccessRolesGenerator.t)
    (entry : string * ResourceExport.t) : CloudFormationResource.t :=
  generateAccessRoleResource (stackOf entry.1) (nameOf entry.1) (principalOf g)
    (generatePolicyStatementsByType (ResourceExport.arn entry.2)
       (typeOf entry.1)).

Definition outputOf (entry : string * ResourceExport.t) : RoleOutput.t :=
  generateAccessRoleOutput (stackOf entry.1) (nameOf entry.1)
    (logicalNameOf entry.1).

Definition withRoleOutputKey (entry : string * ResourceExport.t)
  : string * ResourceExport.t :=
  (entry.1, ResourceExport.setRoleOutputKey (outputKeyOf entry.1) entry.2).

Definition addRole (g : AccessRolesGenerator.t) (acc : AccessRoles.t)
    (entry : string * ResourceExport.t) : AccessRoles.t :=
  {| AccessRoles.resources :=
       <[logicalNameOf entry.1 := roleOf g entry]> (AccessRoles.resources acc);
     AccessRoles.outputs :=
       <[outputKeyOf entry.1 := outputOf entry]> (AccessRoles.outputs acc);
     AccessRoles.resourceExports :=
       AccessRoles.resourceExports acc ++ [withRoleOutputKey entry] |}.

Definition noRoles : AccessRoles.t :=
  {| AccessRoles.resources := ∅;
     AccessRoles.outputs := ∅;
     AccessRoles.resourceExports := [] |}.

(** A sample configuration after [initialize]. *)
Definition sampleGenerator : AccessRolesGenerator.t :=
  {| AccessRolesGenerator.principalAccountId := "123456789012";
     AccessRolesGenerator.principalRoleName := "portal";
     AccessRolesGenerator.externalId := "external";
     AccessRolesGenerator.exportPrefix := DEFAULT_EXPORT_PREFIX;
     AccessRolesGenerator.outDir := DEFAULT_OUT_DIR;
     AccessRolesGenerator.outFilename := DEFAULT_OUT_FILENAME |}.

(** ** Further vocabulary: the pages of the provider *)

(** The provider, asked from [token] on, serves the pages [pages] and the
    last of them carries no token. *)
Inductive serves (request : option string → completion (option ListExportData.t))
  : option string → list ListExportData.t → Prop :=
  | serves_last token data :
      request token = Returned (Some data) →
      nextTokenOf data = None →
      serves request token [data]
  | serves_more token data next pages :
      request token = Returned (Some data) →
      nextTokenOf data = Some next →
      serves request (Some next) pages →
      serves request token (data :: pages).


(** Sample providers: two pages; one page and then a failure; and the same
    token for ever. *)
Definition twoPages (token : option string)
  : completion (option ListExportData.t) :=
  match token with
  | None =>
      Returned (Some {| ListExportData.Exports := [arnExport; foreignExport];
                        ListExportData.NextToken := Some "page-2" |})
  | Some _ =>
      Returned (Some {| ListExportData.Exports := [descriptionExport];
                        ListExportData.NextToken := None |})
  end.


Definition sameToken (token : option string)
  : completion (option ListExportData.t) :=
  Returned (Some {| ListExportData.Exports := [arnExport];
                    ListExportData.NextToken := Some "again" |}).

Definition sampleConfig : CustomConfig.t :=
  {| CustomConfig.principalAccountId := "123456789012";
     CustomConfig.principalRoleName := "portal";
     CustomConfig.externalId := "external";
     CustomConfig.exportPrefix := Some "";
     CustomConfig.outDir := Some "build";
     CustomConfig.outFilename := Some "roles.json" |}.

(** * Properties *)

(** ** Splitting and joining *)

Lemma split_not_nil sep s : split sep s ≠ [].
Proof.
  destruct s as [|c r]; simpl; [done|].
  destruct (Ascii.eqb c sep); [done|]. by destruct (split sep r).
Qed.

Lemma split_cons_sep sep r : split sep (String sep r) = "" :: split sep r.
Proof. simpl. by rewrite Ascii.eqb_refl. Qed.

Lemma split_cons_other sep c r :
  c ≠ sep →
  split sep (String c r) =
    String c (hd "" (split sep r)) :: tl (split sep r).
Proof.
  intros Hc. simpl. destruct (Ascii.eqb_spec c sep) as [->|_]; [done|].
  pose proof (split_not_nil sep r). by destruct (split sep r).
Qed.

Lemma split_free sep s : contains sep s = false → split sep s = [s].
Proof.
  induction s as [|c r IH]; simpl; [done|].
  destruct (Ascii.eqb c sep); simpl; [done|].
  intros Hr. by rewrite (IH Hr).
Qed.

Lemma split_app_sep sep a b :
  split sep (a +:+ String sep b) = split sep a ++ split sep b.
Proof.
  induction a as [|c r IH]; simpl.
  - by rewrite Ascii.eqb_refl.
  - rewrite IH. pose proof (split_not_nil sep r).
    destruct (Ascii.eqb c sep); [done|]. by destruct (split sep r).
Qed.

Lemma split_app sep a b :
  contains sep a = false →
  split sep (a +:+ String sep b) = a :: split sep b.
Proof. intros Ha. by rewrite split_app_sep, (split_free _ a). Qed.

Lemma split_parts_free sep s p : p ∈ split sep s → contains sep p = false.
Proof.
  revert p. induction s as [|c r IH]; intros p; simpl.
  - by intros ->%list_elem_of_singleton.
  - destruct (Ascii.eqb c sep) eqn:Hc.
    + intros [->|Hp]%elem_of_cons; [done|]. by apply IH.
    + pose proof (split_not_nil sep r).
      destruct (split sep r) as [|h t]; [done|].
      intros [->|Hp]%elem_of_cons.
      * simpl. rewrite Hc. apply IH. by left.
      * apply IH. by right.
Qed.

Lemma length_split_key s n t :
  contains ":" s = false → contains ":" n = false → contains ":" t = false →
  split ":" (s +:+ ":" +:+ n +:+ ":" +:+ t) = [s; n; t].
Proof.
  intros Hs Hn Ht.
  change (s +:+ ":" +:+ n +:+ ":" +:+ t)
    with (s +:+ String ":" (n +:+ String ":" t)).
  by rewrite !split_app, (split_free _ t) by done.
Qed.

(** ** The keys of the pending resources *)

(** C7: [splitResourceExportKey] throws the error "Incorrect resource export
    key: <key>" exactly when splitting the key on ':' does not give three
    fields; when it gives three fields, these are returned as [stackName],
    [name] and [type], in this order. *)
Theorem splitResourceExportKey_arity (key : string) :
  (length (split ":" key) ≠ 3 ↔
   splitResourceExportKey key =
     Threw (Error ("Incorrect resource export key: " +:+ key)))
  ∧ (length (split ":" key) ≠ 3 ↔ ∃ e, splitResourceExportKey key = Threw e)
  ∧ (∀ s n t, split ":" key = [s; n; t] →
       splitResourceExportKey key =
         Returned {| ExportKey.stackName := s;
                     ExportKey.name := n;
                     ExportKey.type := t |}).
Proof.
  unfold splitResourceExportKey.
  destruct (split ":" key) as [|s [|n [|t [|x l]]]] eqn:Hsplit; simpl;
    (split; [|split]);
    try (split; [intros _; eauto | intros _; lia]);
    try (split; [lia | intros H; try destruct H; done]);
    try done.
  intros ??? [= -> -> ->]. done.
Qed.

Lemma splitResourceExportKey_arity_witness :
  splitResourceExportKey "orders:createOrder:function" =
    Returned {| ExportKey.stackName := "orders";
                ExportKey.name := "createOrder";
                ExportKey.type := "function" |}.
Proof.
  apply (proj2 (proj2 (splitResourceExportKey_arity
                         "orders:createOrder:function"))).
  reflexivity.
Defined.

(** C9: for strings [s], [n] and [t] without a colon, decoding the key
    "s:n:t" gives back [s], [n] and [t]. *)
Theorem splitResourceExportKey_resourceExportKey (s n t : string) :
  contains ":" s = false → contains ":" n = false → contains ":" t = false →
  splitResourceExportKey (resourceExportKey (Some s) (Some n) (Some t)) =
    Returned {| ExportKey.stackName := s;
                ExportKey.name := n;
                ExportKey.type := t |}.
Proof.
  intros Hs Hn Ht. unfold splitResourceExportKey, resourceExportKey. simpl.
  by rewrite length_split_key.
Qed.

Lemma splitResourceExportKey_resourceExportKey_witness :
  splitResourceExportKey (resourceExportKey (Some "orders") (Some "createOrder")
                            (Some "function")) =
    Returned {| ExportKey.stackName := "orders";
                ExportKey.name := "createOrder";
                ExportKey.type := "function" |}.
Proof.
  apply splitResourceExportKey_resourceExportKey; reflexivity.
Defined.

(** ** Logical names *)

Lemma pascalCase_empty : pascalCase "" = Threw TypeError.
Proof. done. Qed.

Lemma pascalCase_cons c r :
  pascalCase (String c r) = Returned (String (upcase c) r).
Proof.
  unfold pascalCase. simpl. destruct (ascii_dec c c); [|done].
  simpl. by destruct r.
Qed.

Lemma pascalCase_truthy s :
  pascalCase s = if truthy s then Returned (upperFirst s) else Threw TypeError.
Proof. destruct s; [done|]. apply pascalCase_cons. Qed.

Lemma mapM_pascalCase (words : list string) :
  mapM pascalCase words =
    if forallb truthy words then Returned (upperFirst <$> words)
    else Threw TypeError.
Proof.
  induction words as [|w ws IH]; [done|].
  simpl. rewrite pascalCase_truthy.
  destruct (truthy w); [|done]. simpl.
  rewrite IH. by destruct (forallb truthy ws).
Qed.

Lemma generateIamRoleResourceLogicalName_eq s n t :
  generateIamRoleResourceLogicalName s n t None =
    if forallb truthy (split "-" s) && truthy n && truthy t
    then Returned (logicalName s n t)
    else Threw TypeError.
Proof.
  unfold generateIamRoleResourceLogicalName.
  rewrite mapM_pascalCase, !pascalCase_truthy.
  destruct (forallb truthy (split "-" s)); [|done].
  destruct (truthy n); [|done]. by destruct (truthy t).
Qed.

Lemma truthy_false s : truthy s = false ↔ s = "".
Proof. by destruct s. Qed.

Lemma forallb_truthy_false (words : list string) :
  forallb truthy words = false ↔ "" ∈ words.
Proof.
  induction words as [|w ws IH]; simpl.
  - split; [done|]. by intros ?%elem_of_nil.
  - rewrite andb_false_iff, truthy_false, IH, elem_of_cons.
    split; intros [?|?]; subst; auto.
Qed.

(** C4: the logical name is the Pascal-cased '-'-separated segments of the
    stack name, then the Pascal-cased name, the Pascal-cased type and the
    suffix "AccessRole", where Pascal-casing puts the first character in
    upper case and leaves the rest unchanged (the name is returned when no
    segment, nor the name, nor the type is empty; a [TypeError] is thrown
    otherwise).  For ('orders', 'createOrder', 'function') the name is
    "OrdersCreateOrderFunctionAccessRole", and [generateAccessRoles] declares
    the output "OrdersCreateOrderFunctionAccessRoleArn" for it. *)
Theorem generateIamRoleResourceLogicalName_pascal (stackName name type : string) :
  generateIamRoleResourceLogicalName stackName name type None =
    (if forallb truthy (split "-" stackName) && truthy name && truthy type
     then Returned (logicalName stackName name type)
     else Threw TypeError)
  ∧ generateIamRoleResourceLogicalName "orders" "createOrder" "function" None =
      Returned "OrdersCreateOrderFunctionAccessRole"
  ∧ (∀ generator resource,
       generateAccessRoles generator
         [("orders:createOrder:function", resource)] =
       Returned
         {| AccessRoles.resources :=
              {[ "OrdersCreateOrderFunctionAccessRole" :=
                   generateAccessRoleResource "orders" "createOrder"
                     {| PrincipalInfo.principalAccountId :=
                          AccessRolesGenerator.principalAccountId generator;
                        PrincipalInfo.principalRoleName :=
                          AccessRolesGenerator.principalRoleName generator;
                        PrincipalInfo.externalId :=
                          AccessRolesGenerator.externalId generator |}
                     (generatePolicyStatementsByType
                        (ResourceExport.arn resource) "function") ]};
            AccessRoles.outputs :=
              {[ "OrdersCreateOrderFunctionAccessRoleArn" :=
                   generateAccessRoleOutput "orders" "createOrder"
                     "OrdersCreateOrderFunctionAccessRole" ]};
            AccessRoles.resourceExports :=
              [("orders:createOrder:function",
                ResourceExport.setRoleOutputKey
                  "OrdersCreateOrderFunctionAccessRoleArn" resource)] |}).
Proof.
  split; [apply generateIamRoleResourceLogicalName_eq|].
  split; [done|].
  intros generator resource.
  unfold generateAccessRoles, forOf, generateAccessRole.
  change (splitResourceExportKey "orders:createOrder:function")
    with (Returned {| ExportKey.stackName := "orders";
                      ExportKey.name := "createOrder";
                      ExportKey.type := "function" |}).
  cbn [mbind completion_bind ExportKey.stackName ExportKey.name ExportKey.type].
  change (generateIamRoleResourceLogicalName "orders" "createOrder" "function" None)
    with (Returned (A:=string) "OrdersCreateOrderFunctionAccessRole").
  cbn [mbind completion_bind AccessRoles.resources AccessRoles.outputs
       AccessRoles.resourceExports app].
  change ("OrdersCreateOrderFunctionAccessRole" +:+ "Arn")
    with "OrdersCreateOrderFunctionAccessRoleArn".
  by rewrite !insert_empty.
Qed.

(** C10: [generateIamRoleResourceLogicalName] throws a [TypeError] when the
    stack name has an empty '-'-separated segment (so for the empty stack
    name, and for a leading, a trailing or a doubled hyphen) or when the name
    or the type is empty; and it returns a name when the segments, the name
    and the type are all non-empty. *)
Theorem generateIamRoleResourceLogicalName_throws (stackName name type : string) :
  ("" ∈ split "-" stackName ∨ name = "" ∨ type = "" ↔
   generateIamRoleResourceLogicalName stackName name type None = Threw TypeError)
  ∧ (¬ ("" ∈ split "-" stackName ∨ name = "" ∨ type = "") ↔
     ∃ logical,
       generateIamRoleResourceLogicalName stackName name type None =
         Returned logical)
  ∧ (∀ rest,
       generateIamRoleResourceLogicalName "" name type None = Threw TypeError
       ∧ generateIamRoleResourceLogicalName (String "-" rest) name type None =
           Threw TypeError
       ∧ generateIamRoleResourceLogicalName (rest +:+ "-") name type None =
           Threw TypeError
       ∧ generateIamRoleResourceLogicalName
           (stackName +:+ "--" +:+ rest) name type None = Threw TypeError).
Proof.
  assert (Hcases : ∀ s,
    "" ∈ split "-" s ∨ name = "" ∨ type = "" ↔
    forallb truthy (split "-" s) && truthy name && truthy type = false).
  { intros s. rewrite !andb_false_iff, forallb_truthy_false, !truthy_false.
    tauto. }
  assert (Hthrow : ∀ s,
    "" ∈ split "-" s →
    generateIamRoleResourceLogicalName s name type None = Threw TypeError).
  { intros s Hs. rewrite generateIamRoleResourceLogicalName_eq.
    destruct (Hcases s) as [-> _]; auto. }
  split; [|split].
  - rewrite Hcases, generateIamRoleResourceLogicalName_eq.
    destruct (_ && _ && _); split; done.
  - rewrite Hcases, generateIamRoleResourceLogicalName_eq.
    destruct (_ && _ && _); split.
    + eauto.
    + done.
    + done.
    + by intros [? ?].
  - intros rest. split; [|split; [|split]]; apply Hthrow.
    + simpl. by left.
    + rewrite split_cons_sep. by left.
    + change (rest +:+ "-") with (rest +:+ String "-" "").
      rewrite split_app_sep. apply elem_of_app. right. by left.
    + change (stackName +:+ "--" +:+ rest)
        with (stackName +:+ String "-" (String "-" rest)).
      rewrite split_app_sep, split_cons_sep. apply elem_of_app. right. by left.
Qed.

Lemma generateIamRoleResourceLogicalName_throws_witness :
  generateIamRoleResourceLogicalName "orders--api" "createOrder" "function" None
    = Threw TypeError
  ∧ ∃ logical,
      generateIamRoleResourceLogicalName "orders-api" "createOrder" "function"
        None = Returned logical.
Proof.
  split.
  - apply (proj1 (proj1 (generateIamRoleResourceLogicalName_throws
                           "orders--api" "createOrder" "function"))).
    apply (bool_decide_unpack _). vm_compute. exact I.
  - apply (proj1 (proj1 (proj2 (generateIamRoleResourceLogicalName_throws
                                  "orders-api" "createOrder" "function")))).
    apply (bool_decide_unpack _). vm_compute. exact I.
Defined.

(** ** Policy statements *)

Lemma at_index_negative {A} (array : list A) : at_index array (-1) = None.
Proof. done. Qed.

(** C2 (not met by the code): the statements for a state machine do not
    embed the last colon-separated segment of the ARN.  The name is read at
    index -1 of the split ARN, which is [undefined] for every ARN, and the
    three templates carry the text "undefined" in its place; so for the ARN
    of the state machine "OrderFlow" none of them mentions "OrderFlow". *)
Theorem defaultStateMachinePolicyStatements_name_undefined :
  (∀ arn,
     IamRoleStatement.Resource <$> defaultStateMachinePolicyStatements arn =
       [ One (Arn arn);
         Many
           [ FnSub "arn:aws:states:${AWS::Region}:${AWS::AccountId}:execution:undefined:*";
             FnSub "arn:aws:states:${AWS::Region}:${AWS::AccountId}:express:undefined:*:*" ];
         One (FnSub "arn:aws:states:${AWS::Region}:${AWS::AccountId}:execution:undefined:*") ])
  ∧ (let arn := "arn:aws:states:us-east-1:123456789012:stateMachine:OrderFlow" in
     lastSegment arn = Some "OrderFlow"
     ∧ IamRoleStatement.Resource <$> defaultStateMachinePolicyStatements arn ≠
         [ One (Arn arn);
           Many
             [ FnSub "arn:aws:states:${AWS::Region}:${AWS::AccountId}:execution:OrderFlow:*";
               FnSub "arn:aws:states:${AWS::Region}:${AWS::AccountId}:express:OrderFlow:*:*" ];
           One (FnSub "arn:aws:states:${AWS::Region}:${AWS::AccountId}:execution:OrderFlow:*") ]).
Proof.
  split; [done|]. split; [done|]. discriminate.
Qed.

(** C5: for the type "function" there is exactly one statement, allowing
    [lambda:InvokeFunction] on the ARN (the underlying generator adds a
    second one, on the log group, when it is given a non-empty log-group
    ARN); for the type "stateMachine" there are exactly three statements;
    for any other type there is none. *)
Theorem generatePolicyStatementsByType_cases (arn type : string) :
  generatePolicyStatementsByType arn "function" =
    [ {| IamRoleStatement.Effect := "Allow";
         IamRoleStatement.Action := ["lambda:InvokeFunction"];
         IamRoleStatement.Resource := One (Arn arn) |} ]
  ∧ generatePolicyStatementsByType arn "function" =
      defaultLambdaFunctionPolicyStatements arn None
  ∧ (∀ logGroupArn, truthy logGroupArn = true →
       defaultLambdaFunctionPolicyStatements arn (Some logGroupArn) =
         [ {| IamRoleStatement.Effect := "Allow";
              IamRoleStatement.Action := ["lambda:InvokeFunction"];
              IamRoleStatement.Resource := One (Arn arn) |};
           {| IamRoleStatement.Effect := "Allow";
              IamRoleStatement.Action :=
                ["logs:DescribeLogStreams"; "logs:GetLogEvents"];
              IamRoleStatement.Resource := One (Arn logGroupArn) |} ])
  ∧ length (generatePolicyStatementsByType arn "stateMachine") = 3
  ∧ IamRoleStatement.Effect <$> generatePolicyStatementsByType arn "stateMachine"
      = ["Allow"; "Allow"; "Allow"]
  ∧ (type ≠ "function" → type ≠ "stateMachine" →
     generatePolicyStatementsByType arn type = []).
Proof.
  repeat split.
  - intros logGroupArn Hlog. unfold defaultLambdaFunctionPolicyStatements.
    by rewrite Hlog.
  - intros Hf Hs. unfold generatePolicyStatementsByType.
    by rewrite !decide_False.
Qed.

Lemma generatePolicyStatementsByType_cases_witness :
  defaultLambdaFunctionPolicyStatements "arn:aws:lambda:fn" (Some "arn:aws:logs:lg") =
    [ {| IamRoleStatement.Effect := "Allow";
         IamRoleStatement.Action := ["lambda:InvokeFunction"];
         IamRoleStatement.Resource := One (Arn "arn:aws:lambda:fn") |};
      {| IamRoleStatement.Effect := "Allow";
         IamRoleStatement.Action :=
           ["logs:DescribeLogStreams"; "logs:GetLogEvents"];
         IamRoleStatement.Resource := One (Arn "arn:aws:logs:lg") |} ]
  ∧ generatePolicyStatementsByType "arn:aws:sqs:queue" "queue" = [].
Proof.
  pose proof (generatePolicyStatementsByType_cases "arn:aws:lambda:fn" "queue")
    as (_ & _ & Hlog & _ & _ & _).
  pose proof (generatePolicyStatementsByType_cases "arn:aws:sqs:queue" "queue")
    as (_ & _ & _ & _ & _ & Hother).
  split.
  - apply Hlog. reflexivity.
  - apply Hother; discriminate.
Defined.

(** ** The role *)

(** C6: the role is named "<stackName>-<name>" and described as "Access role
    to <name> of <stackName>"; its trust policy has one statement, which
    allows [sts:AssumeRole] to the assumed-role principal of the given
    account and role under the condition StringEquals sts:ExternalId =
    externalId; and it has exactly one inline policy, "EmbeddedInlinePolicy",
    whose statements are the given list, whatever this list is. *)
Theorem generateAccessRoleResource_shape (stackName name : string)
    (principalInfo : PrincipalInfo.t) (statements : list IamRoleStatement.t) :
  let role := generateAccessRoleResource stackName name principalInfo statements in
  let properties := CloudFormationResource.Properties role in
  let trust :=
    TrustPolicy.Statement (RoleProperties.AssumeRolePolicyDocument properties) in
  CloudFormationResource.Type_ role = "AWS::IAM::Role"
  ∧ RoleProperties.RoleName properties = stackName +:+ "-" +:+ name
  ∧ RoleProperties.Description properties =
      "Access role to " +:+ name +:+ " of " +:+ stackName
  ∧ TrustStatement.Effect trust = "Allow"
  ∧ TrustStatement.Action trust = ["sts:AssumeRole"]
  ∧ TrustStatement.Principal_AWS trust =
      "arn:aws:sts::" +:+ PrincipalInfo.principalAccountId principalInfo
        +:+ ":assumed-role/" +:+ PrincipalInfo.principalRoleName principalInfo
        +:+ "/CognitoIdentityCredentials"
  ∧ dom (TrustStatement.Condition trust) = {[ "StringEquals" ]}
  ∧ TrustStatement.Condition trust !! "StringEquals" =
      Some {[ "sts:ExternalId" := PrincipalInfo.externalId principalInfo ]}
  ∧ RoleProperties.Policies properties =
      [ {| Policy.PolicyName := "EmbeddedInlinePolicy";
           Policy.PolicyDocument :=
             {| PolicyDocument.Version := "2012-10-17";
                PolicyDocument.Statement := statements |} |} ]
  ∧ (PolicyDocument.Statement ∘ Policy.PolicyDocument <$>
       RoleProperties.Policies
         (CloudFormationResource.Properties
            (generateAccessRoleResource stackName name principalInfo [])))
      = [ [] ].
Proof.
  simpl. repeat split.
Qed.

(** ** From the exports to the pending resources *)

Lemma collectExport_lookup p m e k :
  collectExport p m e !! k =
    if decide (hasPrefix p e ∧ exportKey e = k)
    then Some (applyField e (default emptyResourceExport (m !! k)))
    else m !! k.
Proof.
  unfold collectExport, applyField. fold (exportParts e).
  fold (exportKey e) (exportField e).
  destruct (decide (hasPrefix p e ∧ exportKey e = k)) as [[Hp <-]|Hn];
    destruct (decide (ExportName.prefix (exportParts e) = Some p)) as [Hp'|Hp'];
    try done.
  - destruct (m !! exportKey e) as [r|] eqn:Hm; simpl;
      repeat case_decide;
      rewrite ?lookup_alter_eq, ?lookup_insert_eq, ?Hm; done.
  - assert (exportKey e ≠ k) as Hk by (intros Hk; by apply Hn).
    destruct (m !! exportKey e) as [r|] eqn:Hm; simpl;
      repeat case_decide;
      rewrite ?lookup_alter_ne, ?lookup_insert_ne by done; done.
Qed.

Lemma fieldValue_snoc field es e :
  fieldValue field (es ++ [e]) =
    if decide (exportField e = Some field) then StackExport.Value e
    else fieldValue field es.
Proof.
  unfold fieldValue. rewrite filter_app, filter_cons, filter_nil.
  case_decide.
  - rewrite fmap_app. cbn [fmap list_fmap]. by rewrite last_snoc.
  - by rewrite app_nil_r.
Qed.

Lemma pendingOf_snoc es e :
  pendingOf (es ++ [e]) =
    Some (applyField e (default emptyResourceExport (pendingOf es))).
Proof.
  unfold pendingOf at 1. destruct (es ++ [e]) eqn:Hes.
  { by destruct es. }
  rewrite <-Hes, !fieldValue_snoc. unfold applyField. f_equal.
  destruct es as [|e0 es']; simpl.
  - unfold fieldValue. simpl. by repeat case_decide.
  - by repeat case_decide.
Qed.

(** The entry under a key is decided by the exports that go under it: their
    presence, the last "arn" and the last "description" among them. *)
Lemma collectResourceExportsByPrefix_lookup p l k :
  collectResourceExportsByPrefix p l !! k = pendingOf (relevant p k l).
Proof.
  unfold collectResourceExportsByPrefix, relevant.
  induction l as [|e l IH] using rev_ind; [done|].
  rewrite foldl_snoc, collectExport_lookup, IH, filter_app, filter_cons, filter_nil.
  case_decide.
  - by rewrite pendingOf_snoc.
  - by rewrite app_nil_r.
Qed.

Lemma relevant_middle p k l1 e l2 :
  relevant p k (l1 ++ e :: l2) =
    relevant p k l1
      ++ (if decide (hasPrefix p e ∧ exportKey e = k) then [e] else [])
      ++ relevant p k l2.
Proof.
  unfold relevant. rewrite filter_app, filter_cons. by case_decide.
Qed.

Lemma fieldValue_middle field es1 e es2 :
  exportField e ≠ Some field →
  fieldValue field (es1 ++ e :: es2) = fieldValue field (es1 ++ es2).
Proof.
  intros He. unfold fieldValue.
  by rewrite !filter_app, filter_cons, decide_False.
Qed.

Lemma pendingOf_middle es1 e es2 :
  exportField e ≠ Some "arn" → exportField e ≠ Some "description" →
  pendingOf (es1 ++ e :: es2) =
    Some (default emptyResourceExport (pendingOf (es1 ++ es2))).
Proof.
  intros Ha Hd. unfold pendingOf at 1.
  destruct (es1 ++ e :: es2) eqn:Hes; [by destruct es1|].
  rewrite <-Hes, !fieldValue_middle by done.
  by destruct (es1 ++ es2).
Qed.

(** C3, as it is worded, fails: an export with the configured prefix and a
    field that is neither "arn" nor "description" is the first one seen
    under its key, and the map with it has an entry that the map without it
    lacks. *)
Lemma collectResourceExportsByPrefix_unknown_field_not_ignored :
  hasPrefix "aser"
    {| StackExport.ExportingStackId := "stack/1";
       StackExport.Name := "aser:orders:createOrder:function:url";
       StackExport.Value := "https://example.org" |}
  ∧ exportField
      {| StackExport.ExportingStackId := "stack/1";
         StackExport.Name := "aser:orders:createOrder:function:url";
         StackExport.Value := "https://example.org" |} = Some "url"
  ∧ collectResourceExportsByPrefix "aser"
      ([] ++
       {| StackExport.ExportingStackId := "stack/1";
          StackExport.Name := "aser:orders:createOrder:function:url";
          StackExport.Value := "https://example.org" |} :: [])
      = {[ "orders:createOrder:function" := emptyResourceExport ]}
  ∧ collectResourceExportsByPrefix "aser" ([] ++ []) = ∅
  ∧ collectResourceExportsByPrefix "aser"
      ([] ++
       {| StackExport.ExportingStackId := "stack/1";
          StackExport.Name := "aser:orders:createOrder:function:url";
          StackExport.Value := "https://example.org" |} :: [])
      ≠ collectResourceExportsByPrefix "aser" ([] ++ []).
Proof.
  assert (Hwith : collectResourceExportsByPrefix "aser"
      ([] ++
       {| StackExport.ExportingStackId := "stack/1";
          StackExport.Name := "aser:orders:createOrder:function:url";
          StackExport.Value := "https://example.org" |} :: [])
      = {[ "orders:createOrder:function" := emptyResourceExport ]}).
  { apply map_eq. intros k.
    rewrite collectResourceExportsByPrefix_lookup, relevant_middle.
    change (exportKey _) with "orders:createOrder:function".
    destruct (decide ("orders:createOrder:function" = k)) as [<-|Hk].
    - rewrite decide_True by done. by rewrite lookup_singleton_eq.
    - rewrite decide_False by (by intros [_ ?]).
      by rewrite lookup_singleton_ne. }
  split; [done|]. split; [done|]. split; [exact Hwith|]. split; [done|].
  rewrite Hwith. change (collectResourceExportsByPrefix "aser" ([] ++ []))
    with (∅ : gmap string ResourceExport.t).
  intros Heq.
  apply (f_equal (λ m : gmap string ResourceExport.t,
                    m !! "orders:createOrder:function")) in Heq.
  by rewrite lookup_singleton_eq, lookup_empty in Heq.
Qed.

(** C3, amended: an export whose decoded prefix is not the configured one is
    ignored, the map being the one computed without it; an export with the
    configured prefix whose field is neither "arn" nor "description" sets no
    [arn] and no [description], but it still counts as a sight of its key:
    the map is the one computed without it, with an entry of empty fields
    added under its key when that map has none there. *)
Theorem collectResourceExportsByPrefix_ignored (p : string)
    (l1 : list StackExport.t) (e : StackExport.t) (l2 : list StackExport.t) :
  (¬ hasPrefix p e →
   collectResourceExportsByPrefix p (l1 ++ e :: l2) =
     collectResourceExportsByPrefix p (l1 ++ l2))
  ∧ (hasPrefix p e →
     exportField e ≠ Some "arn" → exportField e ≠ Some "description" →
     collectResourceExportsByPrefix p (l1 ++ e :: l2) =
       match collectResourceExportsByPrefix p (l1 ++ l2) !! exportKey e with
       | Some _ => collectResourceExportsByPrefix p (l1 ++ l2)
       | None =>
           <[exportKey e := emptyResourceExport]>
             (collectResourceExportsByPrefix p (l1 ++ l2))
       end).
Proof.
  split.
  - intros Hp. apply map_eq. intros k.
    rewrite !collectResourceExportsByPrefix_lookup, relevant_middle.
    rewrite decide_False by (by intros [? _]).
    unfold relevant. by rewrite filter_app.
  - intros Hp Ha Hd. apply map_eq. intros k.
    assert (Hwithout : relevant p k (l1 ++ l2)
                       = relevant p k l1 ++ relevant p k l2).
    { unfold relevant. by rewrite filter_app. }
    rewrite collectResourceExportsByPrefix_lookup, relevant_middle.
    destruct (decide (exportKey e = k)) as [<-|Hk].
    + rewrite decide_True by done. simpl.
      rewrite pendingOf_middle, <-Hwithout by done.
      rewrite <-collectResourceExportsByPrefix_lookup.
      destruct (collectResourceExportsByPrefix p (l1 ++ l2) !! exportKey e)
        as [r|] eqn:Hm; simpl.
      * by rewrite Hm.
      * by rewrite lookup_insert_eq.
    + rewrite decide_False by (by intros [_ ?]). simpl.
      rewrite <-Hwithout, <-collectResourceExportsByPrefix_lookup.
      destruct (collectResourceExportsByPrefix p (l1 ++ l2) !! exportKey e);
        [done|]. by rewrite lookup_insert_ne.
Qed.

Lemma collectResourceExportsByPrefix_ignored_witness :
  collectResourceExportsByPrefix "aser" ([arnExport] ++ foreignExport :: [])
    = collectResourceExportsByPrefix "aser" ([arnExport] ++ [])
  ∧ collectResourceExportsByPrefix "aser" ([arnExport] ++ urlExport :: []) =
      match collectResourceExportsByPrefix "aser" ([arnExport] ++ [])
              !! exportKey urlExport with
      | Some _ => collectResourceExportsByPrefix "aser" ([arnExport] ++ [])
      | None =>
          <[exportKey urlExport := emptyResourceExport]>
            (collectResourceExportsByPrefix "aser" ([arnExport] ++ []))
      end.
Proof.
  split.
  - apply (proj1 (collectResourceExportsByPrefix_ignored
                    "aser" [arnExport] foreignExport [])).
    intros H. vm_compute in H. discriminate H.
  - apply (proj2 (collectResourceExportsByPrefix_ignored
                    "aser" [arnExport] urlExport [])).
    + reflexivity.
    + intros H. vm_compute in H. discriminate H.
    + intros H. vm_compute in H. discriminate H.
Defined.

(** *** One entry per triple, whatever the order *)

Lemma exportKey_keyOfTriple e : exportKey e = keyOfTriple (exportTriple e).
Proof. done. Qed.

Lemma wellFormed_decode p e :
  wellFormed p e → decodeTriple (exportKey e) = exportTriple e.
Proof.
  intros [Hlen _]. unfold exportKey, exportTriple, exportParts, splitExportName.
  pose proof (split_parts_free ":" (StackExport.Name e)) as Hfree.
  destruct (split ":" (StackExport.Name e))
    as [|p0 [|s [|n [|t [|f [|x l]]]]]]; try done.
  simpl. unfold decodeTriple, resourceExportKey. simpl.
  rewrite length_split_key; [done|apply Hfree..].
  - apply elem_of_cons; right. by left.
  - do 2 (apply elem_of_cons; right). by left.
  - do 3 (apply elem_of_cons; right). by left.
Qed.

Lemma wellFormed_key_triple p e1 e2 :
  wellFormed p e1 → wellFormed p e2 →
  exportKey e1 = exportKey e2 ↔ exportTriple e1 = exportTriple e2.
Proof.
  intros H1 H2. split.
  - intros Hk. rewrite <-(wellFormed_decode p e1), <-(wellFormed_decode p e2), Hk;
      done.
  - intros Ht. by rewrite !exportKey_keyOfTriple, Ht.
Qed.

Lemma remove_dups_length_fmap {A B} `{EqDecision A, EqDecision B}
    (f : A → B) (g : B → A) (l : list A) :
  (∀ x, x ∈ l → g (f x) = x) →
  length (remove_dups (f <$> l)) = length (remove_dups l).
Proof.
  induction l as [|x l IH]; intros Hg; [done|].
  assert (Hl : ∀ y, y ∈ l → g (f y) = y).
  { intros y Hy. apply Hg. by right. }
  assert (Hx : g (f x) = x) by (apply Hg; by left).
  cbn [fmap list_fmap remove_dups].
  destruct (decide_rel (∈) (f x) (f <$> l)) as [Hin|Hin];
    destruct (decide_rel (∈) x l) as [Hin'|Hin']; simpl; auto.
  - exfalso. apply Hin'. apply list_elem_of_fmap in Hin as (y & Hy & Hyl).
    rewrite <-Hx, Hy, (Hl y Hyl). done.
  - exfalso. apply Hin. apply list_elem_of_fmap. eauto.
Qed.

Lemma short_Permutation {A} (l l' : list A) :
  length l ≤ 1 → l' ≡ₚ l → l' = l.
Proof.
  destruct l as [|x [|y l]]; simpl; intros Hlen Hperm; [..|lia].
  - by apply Permutation_nil_r.
  - by apply Permutation_singleton_r.
Qed.

Lemma pendingOf_is_Some es : is_Some (pendingOf es) ↔ es ≠ [].
Proof.
  destruct es; simpl; split; done.
Qed.

Lemma filter_iff_elem {A} (P Q : A → Prop)
    `{∀ x, Decision (P x), ∀ x, Decision (Q x)} (l : list A) :
  (∀ x, x ∈ l → P x ↔ Q x) → filter P l = filter Q l.
Proof.
  induction l as [|x l IH]; intros HPQ; [done|].
  rewrite !filter_cons, IH by (intros y Hy; apply HPQ; by right).
  destruct (HPQ x) as [HP HQ]; [by left|].
  destruct (decide (P x)), (decide (Q x)); first [done | exfalso; auto].
Qed.

Lemma collectResourceExportsByPrefix_is_Some p l k :
  is_Some (collectResourceExportsByPrefix p l !! k) ↔
  ∃ e, e ∈ l ∧ hasPrefix p e ∧ exportKey e = k.
Proof.
  rewrite collectResourceExportsByPrefix_lookup, pendingOf_is_Some.
  unfold relevant. split.
  - intros Hne. destruct (filter _ l) as [|e es] eqn:Hf; [done|].
    exists e. rewrite (and_comm (e ∈ l)).
    apply (list_elem_of_filter (λ e, hasPrefix p e ∧ exportKey e = k)).
    rewrite Hf. by left.
  - intros (e & Hin & He) Hnil.
    assert (e ∈ filter (λ e, hasPrefix p e ∧ exportKey e = k) l) as Hf
      by (by apply list_elem_of_filter).
    rewrite Hnil in Hf. by apply elem_of_nil in Hf.
Qed.

Lemma size_list_to_set_remove_dups `{Countable A} (l : list A) :
  size (list_to_set (C:=gset A) l) = length (remove_dups l).
Proof.
  rewrite <-(size_list_to_set (C:=gset A) (remove_dups l))
    by apply NoDup_remove_dups.
  f_equal. apply set_eq. intros x.
  by rewrite !elem_of_list_to_set, elem_of_remove_dups.
Qed.

Lemma fieldValue_Permutation field es es' :
  length (filter (λ e, exportField e = Some field) es) ≤ 1 →
  es' ≡ₚ es → fieldValue field es' = fieldValue field es.
Proof.
  intros Hlen Hperm. unfold fieldValue.
  by rewrite (short_Permutation _ (filter _ es') Hlen) by by rewrite Hperm.
Qed.

Lemma pendingOf_Permutation es es' :
  length (filter (λ e, exportField e = Some "arn") es) ≤ 1 →
  length (filter (λ e, exportField e = Some "description") es) ≤ 1 →
  es' ≡ₚ es → pendingOf es' = pendingOf es.
Proof.
  intros Ha Hd Hperm. destruct es' as [|e' es0'], es as [|e es0].
  - done.
  - by apply Permutation_nil_l in Hperm.
  - by apply Permutation_nil_r in Hperm.
  - unfold pendingOf.
    by rewrite (fieldValue_Permutation "arn" (e :: es0) (e' :: es0')),
       (fieldValue_Permutation "description" (e :: es0) (e' :: es0')).
Qed.

(** Among well-formed exports, those under one key are those of one triple,
    so the count per triple bounds the count per key. *)
Lemma relevant_field_short p k field l :
  Forall (wellFormed p) l →
  Forall (λ e, fieldCount field (exportTriple e) l ≤ 1) l →
  length (filter (λ e, exportField e = Some field) (relevant p k l)) ≤ 1.
Proof.
  intros Hwf Hcount. unfold relevant. rewrite list_filter_filter.
  destruct (filter _ l) as [|e0 es] eqn:Hf; [simpl; lia|].
  assert (e0 ∈ filter (λ e, exportField e = Some field
                            ∧ hasPrefix p e ∧ exportKey e = k) l) as He0.
  { rewrite Hf. by left. }
  apply list_elem_of_filter in He0 as [(Hfield & Hp & Hk) Hin].
  rewrite <-Hf. rewrite Forall_forall in Hwf, Hcount.
  etrans; [|apply (Hcount e0 Hin)]. unfold fieldCount.
  apply Nat.eq_le_incl. f_equal.
  apply filter_iff_elem. intros x Hx.
  rewrite <-Hk, (wellFormed_key_triple p x e0) by auto.
  pose proof (Hwf x Hx) as [_ Hpx]. tauto.
Qed.

(** C8: for well-formed five-field exports with the configured prefix, the
    map has exactly one entry per distinct (stackName, name, type) triple:
    its keys are the keys of the triples of the list, two exports share a key
    exactly when they share a triple, and its size is the number of distinct
    triples.  And a permutation of a list in which every triple has at most
    one "arn" and at most one "description" export gives the same map. *)
Theorem collectResourceExportsByPrefix_one_per_triple (p : string)
    (l : list StackExport.t) :
  Forall (wellFormed p) l →
  (∀ k, is_Some (collectResourceExportsByPrefix p l !! k) ↔
        ∃ e, e ∈ l ∧ keyOfTriple (exportTriple e) = k)
  ∧ (∀ e1 e2, e1 ∈ l → e2 ∈ l →
       keyOfTriple (exportTriple e1) = keyOfTriple (exportTriple e2) ↔
       exportTriple e1 = exportTriple e2)
  ∧ size (collectResourceExportsByPrefix p l) =
      length (remove_dups (exportTriple <$> l))
  ∧ (∀ l', l' ≡ₚ l → atMostOnePerField l →
       collectResourceExportsByPrefix p l' = collectResourceExportsByPrefix p l).
Proof.
  intros Hwf. pose proof Hwf as Hall. rewrite Forall_forall in Hall.
  assert (Hkeys : ∀ k, is_Some (collectResourceExportsByPrefix p l !! k) ↔
                       ∃ e, e ∈ l ∧ keyOfTriple (exportTriple e) = k).
  { intros k. rewrite collectResourceExportsByPrefix_is_Some.
    split; intros (e & Hin & He); exists e.
    - by destruct He.
    - repeat split; [done| |done]. by destruct (Hall e Hin). }
  split; [exact Hkeys|]. split; [|split].
  - intros e1 e2 H1 H2. rewrite <-!exportKey_keyOfTriple.
    apply (wellFormed_key_triple p); auto.
  - rewrite <-size_dom.
    replace (dom (collectResourceExportsByPrefix p l))
      with (list_to_set (C:=gset string) (keyOfTriple <$> (exportTriple <$> l))).
    + rewrite size_list_to_set_remove_dups.
      apply (remove_dups_length_fmap keyOfTriple decodeTriple).
      intros t (e & -> & Hin)%list_elem_of_fmap.
      rewrite <-exportKey_keyOfTriple. apply (wellFormed_decode p); auto.
    + apply set_eq. intros k.
      rewrite elem_of_list_to_set, elem_of_dom, Hkeys, <-list_fmap_compose,
        list_elem_of_fmap.
      split; intros (e & ? & ?); exists e; done.
  - intros l' Hperm Hcount. apply map_eq. intros k.
    rewrite !collectResourceExportsByPrefix_lookup.
    apply pendingOf_Permutation.
    + apply relevant_field_short; [done|].
      eapply Forall_impl; [exact Hcount|]. by intros e [? _].
    + apply relevant_field_short; [done|].
      eapply Forall_impl; [exact Hcount|]. by intros e [_ ?].
    + unfold relevant. by rewrite Hperm.
Qed.

Lemma collectResourceExportsByPrefix_one_per_triple_witness :
  size (collectResourceExportsByPrefix "aser" [arnExport; descriptionExport]) =
    length (remove_dups (exportTriple <$> [arnExport; descriptionExport]))
  ∧ collectResourceExportsByPrefix "aser" [descriptionExport; arnExport] =
      collectResourceExportsByPrefix "aser" [arnExport; descriptionExport].
Proof.
  assert (Hwf : Forall (wellFormed "aser") [arnExport; descriptionExport]).
  { repeat constructor. }
  pose proof (collectResourceExportsByPrefix_one_per_triple
                "aser" [arnExport; descriptionExport] Hwf)
    as (_ & _ & Hsize & Hperm).
  split; [exact Hsize|]. apply Hperm.
  - apply Permutation_swap.
  - repeat constructor.
Defined.

(** ** From the stack outputs to the manifest *)

Lemma findOutput_is_Some stackOutputs entry :
  is_Some (findOutput stackOutputs (ResourceExport.roleOutputKey entry.2)) ↔
  hasOutput stackOutputs entry.
Proof.
  unfold findOutput, hasOutput. rewrite Exists_exists. split.
  - intros [o Ho]. exists o.
    apply list_elem_of_lookup_2, list_elem_of_filter in Ho as [Hkey Hin].
    done.
  - intros (o & Hin & Hkey).
    assert (o ∈ filter (λ output, Output.OutputKey output =
                          Some (ResourceExport.roleOutputKey entry.2))
                  stackOutputs) as Hf by (by apply list_elem_of_filter).
    destruct (filter _ stackOutputs) as [|o' os]; [by apply elem_of_nil in Hf|].
    by exists o'.
Qed.

Lemma collectAccessRole_eq stackOutputs manifest entry :
  collectAccessRole stackOutputs manifest entry =
    match findOutput stackOutputs (ResourceExport.roleOutputKey entry.2) with
    | Some _ => Returned (addEntry stackOutputs manifest entry)
    | None => Threw (missingOutput entry)
    end.
Proof.
  destruct entry as [key resourceExport].
  unfold collectAccessRole, addEntry, resourceOutputOf, stackOf, nameOf.
  fold (findOutput stackOutputs (ResourceExport.roleOutputKey resourceExport)).
  cbn [fst snd].
  destruct (findOutput _ _) as [o|]; [|done]. cbn [mbind option_bind].
  f_equal. rewrite <-insert_union_singleton_l.
  destruct (manifest !! toString (split ":" key !! 0%nat)) eqn:Hm.
  - by rewrite Hm.
  - by rewrite lookup_insert_eq, insert_insert_eq.
Qed.

Lemma forOf_present stackOutputs l manifest :
  Forall (hasOutput stackOutputs) l →
  forOf (collectAccessRole stackOutputs) l manifest =
    Returned (foldl (addEntry stackOutputs) manifest l).
Proof.
  intros Hl. revert manifest.
  induction Hl as [|entry l Hentry _ IH]; intros manifest; [done|].
  cbn [forOf foldl]. rewrite collectAccessRole_eq.
  apply findOutput_is_Some in Hentry as [o ->]. apply IH.
Qed.

Lemma forOf_missing stackOutputs l1 entry l2 manifest :
  Forall (hasOutput stackOutputs) l1 →
  ¬ hasOutput stackOutputs entry →
  forOf (collectAccessRole stackOutputs) (l1 ++ entry :: l2) manifest =
    Threw (missingOutput entry).
Proof.
  intros Hl1 Hentry. revert manifest.
  induction Hl1 as [|e l He _ IH]; intros manifest.
  - cbn [app forOf]. rewrite collectAccessRole_eq.
    destruct (findOutput _ _) eqn:Hf; [|done].
    exfalso. apply Hentry, findOutput_is_Some. by rewrite Hf.
  - cbn [app forOf]. rewrite collectAccessRole_eq.
    apply findOutput_is_Some in He as [o ->]. apply IH.
Qed.

Lemma addEntry_lookup stackOutputs manifest entry st nm :
  addEntry stackOutputs manifest entry !! st ≫= (.!! nm) =
    if decide (placeOf entry = (st, nm))
    then Some (resourceOutputOf stackOutputs entry)
    else manifest !! st ≫= (.!! nm).
Proof.
  unfold addEntry, placeOf.
  destruct (decide (stackOf entry.1 = st)) as [<-|Hst].
  - rewrite lookup_insert_eq. cbn [mbind option_bind].
    destruct (decide (nameOf entry.1 = nm)) as [<-|Hnm].
    + rewrite decide_True by done. by rewrite lookup_insert_eq.
    + rewrite decide_False by congruence.
      rewrite lookup_insert_ne by done.
      by destruct (manifest !! stackOf entry.1).
  - rewrite decide_False by congruence. by rewrite lookup_insert_ne.
Qed.

(** The entry at a place is that of the last pending resource filed there. *)
Lemma foldl_addEntry_lookup stackOutputs l manifest st nm :
  foldl (addEntry stackOutputs) manifest l !! st ≫= (.!! nm) =
    match last (filter (λ entry, placeOf entry = (st, nm)) l) with
    | Some entry => Some (resourceOutputOf stackOutputs entry)
    | None => manifest !! st ≫= (.!! nm)
    end.
Proof.
  induction l as [|entry l IH] using rev_ind; [done|].
  rewrite foldl_snoc, addEntry_lookup, filter_app, filter_cons, filter_nil.
  case_decide.
  - by rewrite last_snoc.
  - by rewrite app_nil_r.
Qed.

Lemma foldl_addEntry_dom stackOutputs l manifest :
  dom (foldl (addEntry stackOutputs) manifest l) =
    dom manifest ∪ list_to_set (stackOf ∘ fst <$> l).
Proof.
  revert manifest. induction l as [|entry l IH]; intros manifest.
  - simpl. by rewrite (right_id_L ∅ (∪)).
  - cbn [foldl]. rewrite IH. unfold addEntry. rewrite dom_insert_L.
    cbn [fmap list_fmap list_to_set foldr compose].
    by rewrite (comm_L (∪) {[stackOf entry.1]}), (assoc_L (∪)).
Qed.

Lemma first_failure {A} (P : A → Prop) `{∀ x, Decision (P x)} (l : list A) :
  ¬ Forall P l →
  ∃ l1 x l2, l = l1 ++ x :: l2 ∧ Forall P l1 ∧ ¬ P x.
Proof.
  induction l as [|x l IH]; intros Hl.
  - destruct Hl. constructor.
  - destruct (decide (P x)) as [Hx|Hx].
    + destruct IH as (l1 & y & l2 & -> & Hl1 & Hy).
      { intros Hall. apply Hl. by constructor. }
      exists (x :: l1), y, l2. repeat split; [by constructor|done].
    + exists [], x, l. repeat split; [constructor|done].
Qed.

Lemma last_filter_is_Some {A} (P : A → Prop) `{∀ x, Decision (P x)}
    (l : list A) :
  is_Some (last (filter P l)) ↔ ∃ x, x ∈ l ∧ P x.
Proof.
  rewrite last_is_Some. split.
  - intros Hne. destruct (filter P l) as [|x xs] eqn:Hf; [done|].
    exists x. rewrite (and_comm (x ∈ l)). apply (list_elem_of_filter P l).
    rewrite Hf. by left.
  - intros (x & Hin & HP) Hnil.
    assert (x ∈ filter P l) as Hx by (by apply list_elem_of_filter).
    rewrite Hnil in Hx. by apply elem_of_nil in Hx.
Qed.

Lemma foldl_addEntry_size stackOutputs l :
  size (map_uncurry (M12:=gmap (string * string))
          (foldl (addEntry stackOutputs) ∅ l)) =
    length (remove_dups (placeOf <$> l)).
Proof.
  rewrite <-size_dom, <-size_list_to_set_remove_dups. f_equal.
  apply set_eq. intros [st nm].
  rewrite elem_of_dom, lookup_map_uncurry, foldl_addEntry_lookup,
    elem_of_list_to_set, list_elem_of_fmap.
  rewrite lookup_empty. cbn [mbind option_bind].
  destruct (last (filter _ l)) as [entry|] eqn:Hlast.
  - assert (is_Some (last (filter (λ entry, placeOf entry = (st, nm)) l)))
      as (x & Hin & Hx)%last_filter_is_Some by (by rewrite Hlast).
    split; [intros _; eauto|eauto].
  - split; [by intros [? ?]|]. intros (x & Hx & Hin).
    assert (is_Some (last (filter (λ entry, placeOf entry = (st, nm)) l)))
      as [? Hsome] by (apply last_filter_is_Some; eauto).
    congruence.
Qed.

Lemma remove_dups_NoDup `{EqDecision A} (l : list A) :
  NoDup l → remove_dups l = l.
Proof.
  induction 1 as [|x l Hx _ IH]; [done|].
  simpl. rewrite IH. by destruct (decide_rel (∈) x l).
Qed.

(** C1: when some pending resource has a [roleOutputKey] that is the key of
    no output, [collectAccessRolesArnFromStackOutputs] throws the error
    "Unable to find output: <roleOutputKey>" for the first such resource it
    visits, and the [export] hook writes no file and rethrows it.  When every
    [roleOutputKey] is the key of an output, a manifest is returned: under
    each stack and resource name it has the entry of the last pending
    resource filed there, made of its [arn], its [description] and the value
    of the first output with its [roleOutputKey]; its stacks are those of the
    pending resources; it has one entry per distinct (stack, resource name),
    hence one per pending resource when no two share a stack and a name. *)
Theorem collectAccessRolesArnFromStackOutputs_manifest
    (stackOutputs : list Output.t)
    (resourceExports : list (string * ResourceExport.t)) :
  (¬ Forall (hasOutput stackOutputs) resourceExports →
   ∃ l1 entry l2,
     resourceExports = l1 ++ entry :: l2
     ∧ Forall (hasOutput stackOutputs) l1
     ∧ ¬ hasOutput stackOutputs entry
     ∧ collectAccessRolesArnFromStackOutputs stackOutputs resourceExports =
         Threw (Error ("Unable to find output: "
                         +:+ ResourceExport.roleOutputKey entry.2))
     ∧ ∀ path_join JSON_stringify serviceName serviceDir generator w,
         let result :=
           export path_join JSON_stringify serviceName serviceDir generator
             (Returned (Some stackOutputs)) resourceExports w in
         World.files result.1 = World.files w
         ∧ result.2 =
             Threw (Error ("Unable to find output: "
                             +:+ ResourceExport.roleOutputKey entry.2)))
  ∧ (Forall (hasOutput stackOutputs) resourceExports →
     ∃ manifest,
       collectAccessRolesArnFromStackOutputs stackOutputs resourceExports =
         Returned manifest
       ∧ (∀ stackName name,
            manifest !! stackName ≫= (.!! name) =
              resourceOutputOf stackOutputs <$>
                last (filter (λ entry, placeOf entry = (stackName, name))
                        resourceExports))
       ∧ dom manifest = list_to_set (stackOf ∘ fst <$> resourceExports)
       ∧ size (map_uncurry (M12:=gmap (string * string)) manifest) =
           length (remove_dups (placeOf <$> resourceExports))
       ∧ (NoDup (placeOf <$> resourceExports) →
          size (map_uncurry (M12:=gmap (string * string)) manifest) =
            length resourceExports)).
Proof.
  unfold collectAccessRolesArnFromStackOutputs. split.
  - intros Hmissing.
    apply (first_failure (hasOutput stackOutputs)) in Hmissing
      as (l1 & entry & l2 & -> & Hl1 & Hentry).
    exists l1, entry, l2.
    pose proof (forOf_missing stackOutputs l1 entry l2 ∅ Hl1 Hentry) as Hthrow.
    split; [done|]. split; [done|]. split; [done|]. split; [done|].
    intros path_join JSON_stringify serviceName serviceDir generator w.
    unfold export, collectAccessRolesArnFromStackOutputs.
    cbn [mbind completion_bind]. rewrite Hthrow. by cbn.
  - intros Hall. eexists. split; [by apply forOf_present|].
    split; [|split; [|split]].
    + intros st nm. rewrite foldl_addEntry_lookup, lookup_empty.
      by destruct (last _).
    + by rewrite foldl_addEntry_dom, dom_empty_L, (left_id_L ∅ (∪)).
    + apply foldl_addEntry_size.
    + intros Hnodup.
      by rewrite foldl_addEntry_size, remove_dups_NoDup, length_fmap.
Qed.

Lemma collectAccessRolesArnFromStackOutputs_manifest_witness :
  (∃ key,
     collectAccessRolesArnFromStackOutputs deployedOutputs
       [pendingCreateOrder; pendingCancelOrder] =
       Threw (Error ("Unable to find output: " +:+ key)))
  ∧ (∃ manifest,
       collectAccessRolesArnFromStackOutputs deployedOutputs
         [pendingCreateOrder] = Returned manifest
       ∧ size (map_uncurry (M12:=gmap (string * string)) manifest) = 1).
Proof.
  split.
  - destruct (collectAccessRolesArnFromStackOutputs_manifest deployedOutputs
                [pendingCreateOrder; pendingCancelOrder]) as [Hmissing _].
    destruct Hmissing as (l1 & entry & l2 & _ & _ & _ & Hthrow & _).
    + apply (bool_decide_unpack _). vm_compute. exact I.
    + eauto.
  - destruct (collectAccessRolesArnFromStackOutputs_manifest deployedOutputs
                [pendingCreateOrder]) as [_ Hpresent].
    destruct Hpresent as (manifest & Hret & _ & _ & _ & Hsize).
    + apply (bool_decide_unpack _). vm_compute. exact I.
    + exists manifest. split; [exact Hret|]. apply Hsize.
      apply (bool_decide_unpack _). vm_compute. exact I.
Defined.

(** * Further properties of the code *)

(** ** Keys and export names *)

Lemma length_split_countChar sep s :
  length (split sep s) = S (countChar sep s).
Proof.
  induction s as [|c r IH]; [done|].
  simpl. pose proof (split_not_nil sep r).
  destruct (Ascii.eqb c sep); simpl; [by rewrite IH|].
  destruct (split sep r); [done|]. simpl in *. lia.
Qed.

Lemma joinWith_split sep s : joinWith sep (split sep s) = s.
Proof.
  induction s as [|c r IH]; [done|].
  simpl. pose proof (split_not_nil sep r).
  destruct (Ascii.eqb_spec c sep) as [->|_].
  - destruct (split sep r) as [|h t]; [done|]. simpl in *. by rewrite IH.
  - destruct (split sep r) as [|h [|h' t]]; [done|..]; simpl in *;
      by rewrite <-IH.
Qed.

(** X1: [splitResourceExportKey] returns exactly for the keys with two
    colons, empty fields included; and the three fields it returns are free
    of colons and, joined by colons again, give the key back. *)
Theorem splitResourceExportKey_two_colons (key : string) :
  (countChar ":" key = 2 ↔ ∃ k, splitResourceExportKey key = Returned k)
  ∧ (∀ k, splitResourceExportKey key = Returned k →
       key = ExportKey.stackName k +:+ ":" +:+ ExportKey.name k
               +:+ ":" +:+ ExportKey.type k
       ∧ contains ":" (ExportKey.stackName k) = false
       ∧ contains ":" (ExportKey.name k) = false
       ∧ contains ":" (ExportKey.type k) = false)
  ∧ splitResourceExportKey "::" =
      Returned {| ExportKey.stackName := "";
                  ExportKey.name := "";
                  ExportKey.type := "" |}.
Proof.
  pose proof (length_split_countChar ":" key) as Hlen.
  pose proof (joinWith_split ":" key) as Hjoin.
  pose proof (split_parts_free ":" key) as Hfree.
  split; [|split; [|done]]; unfold splitResourceExportKey.
  - destruct (split ":" key) as [|s [|n [|t [|x l]]]]; simpl in *.
    1,2,3,5: split; [intros; lia | by intros [k Hk]].
    split; [eauto|intros; lia].
  - intros k. destruct (split ":" key) as [|s [|n [|t [|x l]]]]; simpl in *;
      try done.
    intros [= <-]. simpl. split; [done|].
    split; [|split]; apply Hfree.
    + by left.
    + right. by left.
    + do 2 right. by left.
Qed.

Lemma splitResourceExportKey_two_colons_witness :
  "a:b:c" = "a" +:+ ":" +:+ "b" +:+ ":" +:+ "c"
  ∧ contains ":" "a" = false ∧ contains ":" "b" = false
  ∧ contains ":" "c" = false.
Proof.
  apply (proj1 (proj2 (splitResourceExportKey_two_colons "a:b:c"))
           {| ExportKey.stackName := "a"; ExportKey.name := "b";
              ExportKey.type := "c" |}).
  reflexivity.
Defined.

(** X2: [splitExportName] reads the first five colon-separated fields of a
    name.  It decodes a name made of five colon-free parts into these parts;
    fields after the fifth are ignored; the prefix is always defined, and it
    is the whole name when there is no colon; and the last field is
    [undefined] exactly when the name has fewer than four colons. *)
Theorem splitExportName_fields (name : string) :
  (∀ p s n t f,
     contains ":" p = false → contains ":" s = false →
     contains ":" n = false → contains ":" t = false →
     contains ":" f = false →
     splitExportName
       (p +:+ ":" +:+ s +:+ ":" +:+ n +:+ ":" +:+ t +:+ ":" +:+ f) =
       {| ExportName.prefix := Some p; ExportName.stackName := Some s;
          ExportName.name := Some n; ExportName.type := Some t;
          ExportName.resource := Some f |})
  ∧ (∀ extra, 4 ≤ countChar ":" name →
       splitExportName (name +:+ ":" +:+ extra) = splitExportName name)
  ∧ is_Some (ExportName.prefix (splitExportName name))
  ∧ (contains ":" name = false →
     splitExportName name =
       {| ExportName.prefix := Some name; ExportName.stackName := None;
          ExportName.name := None; ExportName.type := None;
          ExportName.resource := None |})
  ∧ (ExportName.resource (splitExportName name) = None ↔
     countChar ":" name < 4).
Proof.
  split; [|split; [|split; [|split]]].
  - intros p s n t f Hp Hs Hn Ht Hf. unfold splitExportName.
    change (p +:+ ":" +:+ s +:+ ":" +:+ n +:+ ":" +:+ t +:+ ":" +:+ f)
      with (p +:+ String ":" (s +:+ String ":" (n +:+ String ":"
              (t +:+ String ":" f)))).
    by rewrite !split_app, (split_free _ f) by done.
  - intros extra Hcount. unfold splitExportName.
    change (name +:+ ":" +:+ extra) with (name +:+ String ":" extra).
    rewrite split_app_sep.
    pose proof (length_split_countChar ":" name) as Hlen.
    by rewrite !lookup_app_l by lia.
  - unfold splitExportName. simpl.
    pose proof (split_not_nil ":" name). by destruct (split ":" name).
  - intros Hfree. unfold splitExportName. by rewrite split_free.
  - unfold splitExportName. simpl.
    rewrite lookup_ge_None, length_split_countChar. lia.
Qed.

Lemma splitExportName_fields_witness :
  splitExportName
    ("aser" +:+ ":" +:+ "orders" +:+ ":" +:+ "createOrder" +:+ ":"
       +:+ "function" +:+ ":" +:+ "arn") =
    {| ExportName.prefix := Some "aser"; ExportName.stackName := Some "orders";
       ExportName.name := Some "createOrder";
       ExportName.type := Some "function";
       ExportName.resource := Some "arn" |}
  ∧ splitExportName ("a:b:c:d:e" +:+ ":" +:+ "more") =
      splitExportName "a:b:c:d:e".
Proof.
  split.
  - apply (proj1 (splitExportName_fields "")); reflexivity.
  - apply (proj1 (proj2 (splitExportName_fields "a:b:c:d:e"))).
    vm_compute. lia.
Defined.

(** ** Pending resources *)

Lemma pendingOf_Some es r :
  pendingOf es = Some r →
  ResourceExport.arn r = fieldValue "arn" es
  ∧ ResourceExport.description r = fieldValue "description" es
  ∧ ResourceExport.roleOutputKey r = "".
Proof. destruct es; [done|]. by intros [= <-]. Qed.

(** X3: the entry that [collectResourceExportsByPrefix] keeps under a key is
    decided by the exports with the prefix and that key: there is an entry
    exactly when there is such an export; its [arn] is the value of the last
    of them with the field "arn", or the empty string when there is none,
    and likewise for its [description]; its [roleOutputKey] is empty.  So a
    later "arn" export for a key replaces the value of an earlier one. *)
Theorem collectResourceExportsByPrefix_last_wins (p : string)
    (l : list StackExport.t) (k : string) :
  (is_Some (collectResourceExportsByPrefix p l !! k) ↔
   ∃ e, e ∈ l ∧ hasPrefix p e ∧ exportKey e = k)
  ∧ (∀ r, collectResourceExportsByPrefix p l !! k = Some r →
       ResourceExport.arn r = fieldValue "arn" (relevant p k l)
       ∧ ResourceExport.description r =
           fieldValue "description" (relevant p k l)
       ∧ ResourceExport.roleOutputKey r = "")
  ∧ (∀ e, hasPrefix p e → exportField e = Some "arn" →
       ResourceExport.arn <$>
         collectResourceExportsByPrefix p (l ++ [e]) !! exportKey e =
         Some (StackExport.Value e)).
Proof.
  split; [apply collectResourceExportsByPrefix_is_Some|]. split.
  - intros r. rewrite collectResourceExportsByPrefix_lookup.
    apply pendingOf_Some.
  - intros e Hp Hfield.
    rewrite collectResourceExportsByPrefix_lookup. unfold relevant.
    rewrite filter_app, filter_cons, filter_nil, decide_True by done.
    rewrite pendingOf_snoc. simpl. unfold applyField.
    rewrite (decide_True (P:=exportField e = Some "arn")) by done.
    rewrite decide_False by (rewrite Hfield; discriminate). done.
Qed.

Lemma collectResourceExportsByPrefix_last_wins_witness :
  ResourceExport.arn <$>
    collectResourceExportsByPrefix "aser" ([arnExport] ++ [arnExport])
      !! exportKey arnExport = Some (StackExport.Value arnExport).
Proof.
  apply (proj2 (proj2 (collectResourceExportsByPrefix_last_wins
                         "aser" [arnExport] ""))); reflexivity.
Defined.

Lemma toString_field_free (name : string) (i : nat) :
  contains ":" (toString (split ":" name !! i)) = false.
Proof.
  destruct (split ":" name !! i) as [part|] eqn:Hpart; [|done].
  apply (split_parts_free ":" name). by eapply list_elem_of_lookup_2.
Qed.

Lemma exportKey_split e :
  split ":" (exportKey e) =
    [ toString (ExportName.stackName (exportParts e));
      toString (ExportName.name (exportParts e));
      toString (ExportName.type (exportParts e)) ].
Proof.
  unfold exportKey, resourceExportKey, exportParts, splitExportName. simpl.
  apply length_split_key; apply toString_field_free.
Qed.

(** X4: every key of the map made by [collectResourceExportsByPrefix] has
    three fields, whatever the export names are: it is the key of an export
    of the list with the prefix, and [splitResourceExportKey] returns on it
    the three decoded fields of that export, a missing one read as
    "undefined". *)
Theorem collectResourceExportsByPrefix_keys_split (p : string)
    (l : list StackExport.t) (k : string) :
  is_Some (collectResourceExportsByPrefix p l !! k) →
  ∃ e, e ∈ l ∧ hasPrefix p e ∧ k = exportKey e
       ∧ splitResourceExportKey k =
           Returned
             {| ExportKey.stackName :=
                  toString (ExportName.stackName (exportParts e));
                ExportKey.name := toString (ExportName.name (exportParts e));
                ExportKey.type := toString (ExportName.type (exportParts e)) |}.
Proof.
  intros (e & Hin & Hp & <-)%collectResourceExportsByPrefix_is_Some.
  exists e. repeat split; try done.
  unfold splitResourceExportKey. by rewrite exportKey_split.
Qed.

Lemma collectResourceExportsByPrefix_keys_split_witness :
  ∃ e, e ∈ [urlExport] ∧ hasPrefix "aser" e
       ∧ "orders:createOrder:function" = exportKey e
       ∧ splitResourceExportKey "orders:createOrder:function" =
           Returned
             {| ExportKey.stackName :=
                  toString (ExportName.stackName (exportParts e));
                ExportKey.name := toString (ExportName.name (exportParts e));
                ExportKey.type := toString (ExportName.type (exportParts e)) |}.
Proof.
  apply (collectResourceExportsByPrefix_keys_split "aser" [urlExport]).
  vm_compute. eauto.
Defined.

(** ** The generated roles *)

Lemma forOf_pure {A S} (body : S → A → completion S) (f : S → A → S)
    (P : A → Prop) (l : list A) (acc : S) :
  (∀ acc x, P x → body acc x = Returned (f acc x)) →
  Forall P l → forOf body l acc = Returned (foldl f acc l).
Proof.
  intros Hbody Hl. revert acc.
  induction Hl as [|x l Hx _ IH]; intros acc; [done|].
  cbn [forOf foldl]. rewrite Hbody by done. apply IH.
Qed.

Lemma forOf_throws {A S} (body : S → A → completion S) (f : S → A → S)
    (P : A → Prop) (l1 : list A) (x : A) (l2 : list A) (e : exn) (acc : S) :
  (∀ acc x, P x → body acc x = Returned (f acc x)) →
  (∀ acc, body acc x = Threw e) →
  Forall P l1 → forOf body (l1 ++ x :: l2) acc = Threw e.
Proof.
  intros Hbody Hx Hl1. revert acc.
  induction Hl1 as [|y l Hy _ IH]; intros acc.
  - cbn [app forOf]. by rewrite Hx.
  - cbn [app forOf]. rewrite Hbody by done. apply IH.
Qed.

Lemma splitResourceExportKey_accepted key :
  countChar ":" key = 2 →
  splitResourceExportKey key =
    Returned {| ExportKey.stackName := stackOf key;
                ExportKey.name := nameOf key;
                ExportKey.type := typeOf key |}.
Proof.
  intros Hcount. pose proof (length_split_countChar ":" key) as Hlen.
  unfold splitResourceExportKey, stackOf, nameOf, typeOf.
  destruct (split ":" key) as [|s [|n [|t [|x l]]]]; simpl in *; by try lia.
Qed.

Lemma splitResourceExportKey_rejected key :
  countChar ":" key ≠ 2 →
  splitResourceExportKey key =
    Threw (Error ("Incorrect resource export key: " +:+ key)).
Proof.
  intros Hcount. pose proof (length_split_countChar ":" key) as Hlen.
  unfold splitResourceExportKey.
  destruct (split ":" key) as [|s [|n [|t [|x l]]]]; simpl in *; by try lia.
Qed.

Lemma generateAccessRole_accepted g acc entry :
  keyAccepted entry.1 →
  generateAccessRole g acc entry = Returned (addRole g acc entry).
Proof.
  destruct entry as [key resource]. intros (Hcount & Hstack & Hname & Htype).
  cbn [fst] in *. unfold generateAccessRole.
  rewrite splitResourceExportKey_accepted by done.
  cbn [mbind completion_bind ExportKey.stackName ExportKey.name ExportKey.type].
  rewrite generateIamRoleResourceLogicalName_eq.
  replace (forallb truthy (split "-" (stackOf key)) && truthy (nameOf key)
           && truthy (typeOf key)) with true; [done|].
  symmetry. rewrite !andb_true_iff. repeat split.
  - apply not_false_iff_true. by rewrite forallb_truthy_false.
  - apply not_false_iff_true. by rewrite truthy_false.
  - apply not_false_iff_true. by rewrite truthy_false.
Qed.

Lemma generateAccessRole_rejected g acc entry :
  ¬ keyAccepted entry.1 →
  generateAccessRole g acc entry = Threw (rejection entry.1).
Proof.
  destruct entry as [key resource]. cbn [fst]. intros Hrej.
  unfold generateAccessRole, rejection.
  destruct (decide (countChar ":" key = 2)) as [Hcount|Hcount].
  - rewrite splitResourceExportKey_accepted by done.
    cbn [mbind completion_bind ExportKey.stackName ExportKey.name
         ExportKey.type].
    rewrite generateIamRoleResourceLogicalName_eq.
    replace (forallb truthy (split "-" (stackOf key)) && truthy (nameOf key)
             && truthy (typeOf key)) with false; [done|].
    symmetry. rewrite !andb_false_iff, forallb_truthy_false, !truthy_false.
    unfold keyAccepted in Hrej.
    destruct (decide ("" ∈ split "-" (stackOf key))); [auto|].
    destruct (decide (nameOf key = "")); [auto|].
    destruct (decide (typeOf key = "")); [auto|].
    exfalso. by apply Hrej.
  - by rewrite splitResourceExportKey_rejected.
Qed.

Lemma foldl_addRole_resourceExports g l acc :
  AccessRoles.resourceExports (foldl (addRole g) acc l) =
    AccessRoles.resourceExports acc ++ (withRoleOutputKey <$> l).
Proof.
  revert acc. induction l as [|entry l IH]; intros acc.
  - by rewrite app_nil_r.
  - cbn [foldl]. rewrite IH. simpl. by rewrite <-app_assoc.
Qed.

Lemma foldl_addRole_resources g l acc ln :
  AccessRoles.resources (foldl (addRole g) acc l) !! ln =
    match last (filter (λ entry, logicalNameOf entry.1 = ln) l) with
    | Some entry => Some (roleOf g entry)
    | None => AccessRoles.resources acc !! ln
    end.
Proof.
  induction l as [|entry l IH] using rev_ind; [done|].
  rewrite foldl_snoc, filter_app, filter_cons, filter_nil. simpl.
  case_decide as Hln.
  - by rewrite last_snoc, Hln, lookup_insert_eq.
  - by rewrite app_nil_r, lookup_insert_ne.
Qed.

Lemma foldl_addRole_outputs g l acc k :
  AccessRoles.outputs (foldl (addRole g) acc l) !! k =
    match last (filter (λ entry, outputKeyOf entry.1 = k) l) with
    | Some entry => Some (outputOf entry)
    | None => AccessRoles.outputs acc !! k
    end.
Proof.
  induction l as [|entry l IH] using rev_ind; [done|].
  rewrite foldl_snoc, filter_app, filter_cons, filter_nil. simpl.
  case_decide as Hk.
  - by rewrite last_snoc, Hk, lookup_insert_eq.
  - by rewrite app_nil_r, lookup_insert_ne.
Qed.

Lemma generateAccessRoles_foldl g l :
  Forall (λ entry, keyAccepted entry.1) l →
  generateAccessRoles g l = Returned (foldl (addRole g) noRoles l).
Proof.
  intros Hl. unfold generateAccessRoles.
  apply (forOf_pure _ (addRole g) (λ entry, keyAccepted entry.1)); [|done].
  intros acc x. apply generateAccessRole_accepted.
Qed.

Lemma generateAccessRoles_first_rejected g l1 entry l2 :
  Forall (λ entry, keyAccepted entry.1) l1 → ¬ keyAccepted entry.1 →
  generateAccessRoles g (l1 ++ entry :: l2) = Threw (rejection entry.1).
Proof.
  intros Hl1 Hrej. unfold generateAccessRoles.
  apply (forOf_throws _ (addRole g) (λ entry, keyAccepted entry.1)); [..|done].
  - intros acc x. apply generateAccessRole_accepted.
  - intros acc. by apply generateAccessRole_rejected.
Qed.

Lemma generateAccessRoles_Returned g l roles :
  generateAccessRoles g l = Returned roles →
  Forall (λ entry, keyAccepted entry.1) l
  ∧ roles = foldl (addRole g) noRoles l.
Proof.
  intros Hret.
  destruct (decide (Forall (λ entry, keyAccepted entry.1) l)) as [Hl|Hl].
  - split; [done|]. rewrite generateAccessRoles_foldl in Hret by done.
    by injection Hret.
  - apply (first_failure (λ entry, keyAccepted entry.1)) in Hl
      as (l1 & entry & l2 & -> & Hl1 & Hrej).
    by rewrite generateAccessRoles_first_rejected in Hret.
Qed.

(** X5: [generateAccessRoles] returns exactly when every key has two colons
    and no empty stack-name segment, name or type.  It then hands back the
    pending resources in their order, unchanged but for [roleOutputKey], set
    to the logical name followed by "Arn"; under each logical name the role
    of the last pending resource with that name; and under each output key
    the output of the last pending resource with that key. *)
Theorem generateAccessRoles_returns (g : AccessRolesGenerator.t)
    (l : list (string * ResourceExport.t)) :
  (Forall (λ entry, keyAccepted entry.1) l ↔
   ∃ roles, generateAccessRoles g l = Returned roles)
  ∧ (∀ roles, generateAccessRoles g l = Returned roles →
       AccessRoles.resourceExports roles = withRoleOutputKey <$> l
       ∧ (∀ ln, AccessRoles.resources roles !! ln =
                  roleOf g <$>
                    last (filter (λ entry, logicalNameOf entry.1 = ln) l))
       ∧ (∀ k, AccessRoles.outputs roles !! k =
                 outputOf <$>
                   last (filter (λ entry, outputKeyOf entry.1 = k) l))).
Proof.
  split.
  - split.
    + intros Hl. eexists. by apply generateAccessRoles_foldl.
    + intros [roles Hret]. by apply generateAccessRoles_Returned in Hret as [? _].
  - intros roles [Hl ->]%generateAccessRoles_Returned. split; [|split].
    + by rewrite foldl_addRole_resourceExports.
    + intros ln. rewrite foldl_addRole_resources. by destruct (last _).
    + intros k. rewrite foldl_addRole_outputs. by destruct (last _).
Qed.

Lemma generateAccessRoles_returns_witness :
  ∃ roles,
    generateAccessRoles sampleGenerator [pendingCreateOrder; pendingCancelOrder]
      = Returned roles.
Proof.
  apply (proj1 (proj1 (generateAccessRoles_returns sampleGenerator
                         [pendingCreateOrder; pendingCancelOrder]))).
  apply (bool_decide_unpack _). vm_compute. exact I.
Defined.

(** X6: [generateAccessRoles] throws for the first key it does not accept:
    the error "Incorrect resource export key: <key>" when that key has not
    two colons, and a [TypeError] when it has two colons but an empty
    stack-name segment, name or type.  No role is returned then, whatever
    the keys before and after. *)
Theorem generateAccessRoles_throws (g : AccessRolesGenerator.t)
    (l1 : list (string * ResourceExport.t)) (key : string)
    (resource : ResourceExport.t) (l2 : list (string * ResourceExport.t)) :
  Forall (λ entry, keyAccepted entry.1) l1 →
  ¬ keyAccepted key →
  generateAccessRoles g (l1 ++ (key, resource) :: l2) =
    Threw (if decide (countChar ":" key = 2) then TypeError
           else Error ("Incorrect resource export key: " +:+ key)).
Proof.
  intros Hl1 Hrej.
  by rewrite (generateAccessRoles_first_rejected g l1 (key, resource) l2).
Qed.

Lemma generateAccessRoles_throws_witness :
  generateAccessRoles sampleGenerator
    ([pendingCreateOrder] ++ ("orders::function", emptyResourceExport) :: [])
    = Threw TypeError
  ∧ generateAccessRoles sampleGenerator
      ([] ++ ("orders", emptyResourceExport) :: [pendingCreateOrder])
      = Threw (Error "Incorrect resource export key: orders").
Proof.
  split.
  - apply (generateAccessRoles_throws sampleGenerator [pendingCreateOrder]
             "orders::function" emptyResourceExport []);
      apply (bool_decide_unpack _); vm_compute; exact I.
  - apply (generateAccessRoles_throws sampleGenerator []
             "orders" emptyResourceExport [pendingCreateOrder]);
      apply (bool_decide_unpack _); vm_compute; exact I.
Defined.

Lemma list_ascii_of_string_app s t :
  String.list_ascii_of_string (s +:+ t) =
    String.list_ascii_of_string s ++ String.list_ascii_of_string t.
Proof. induction s as [|c s IH]; [done|]. simpl. by rewrite IH. Qed.

Lemma string_app_inj_r s1 s2 t : s1 +:+ t = s2 +:+ t → s1 = s2.
Proof.
  intros Heq. apply (f_equal String.list_ascii_of_string) in Heq.
  rewrite !list_ascii_of_string_app in Heq. apply app_inv_tail in Heq.
  rewrite <-(String.string_of_list_ascii_of_string s1),
    <-(String.string_of_list_ascii_of_string s2). by rewrite Heq.
Qed.

Lemma last_filter_elem {A} (P : A → Prop) `{∀ x, Decision (P x)}
    (l : list A) (x : A) :
  last (filter P l) = Some x → x ∈ l ∧ P x.
Proof.
  intros Hlast. rewrite (and_comm (x ∈ l)). apply (list_elem_of_filter P l).
  rewrite last_lookup in Hlast. by eapply list_elem_of_lookup_2.
Qed.

Lemma generateAccessRoles_output_keys g l roles :
  generateAccessRoles g l = Returned roles →
  ∀ k, is_Some (AccessRoles.outputs roles !! k) ↔
       ∃ entry, entry ∈ l ∧ outputKeyOf entry.1 = k.
Proof.
  intros [Hl ->]%generateAccessRoles_Returned k.
  rewrite foldl_addRole_outputs.
  rewrite <-(last_filter_is_Some (λ entry, outputKeyOf entry.1 = k)).
  destruct (last _); cbn [noRoles AccessRoles.outputs];
    [|by rewrite lookup_empty].
  split; intros _; eauto.
Qed.

(** X7: in what [generateAccessRoles] returns, roles and outputs go in
    pairs: a logical name has a role exactly when that name followed by
    "Arn" has an output; every output is under such a key and refers, by
    [Fn::GetAtt], to the "Arn" of a role that is declared; and the
    [roleOutputKey] of every pending resource handed back is the key of a
    declared output. *)
Theorem generateAccessRoles_pairs (g : AccessRolesGenerator.t)
    (l : list (string * ResourceExport.t)) (roles : AccessRoles.t) :
  generateAccessRoles g l = Returned roles →
  (∀ ln, is_Some (AccessRoles.resources roles !! ln) ↔
         is_Some (AccessRoles.outputs roles !! (ln +:+ "Arn")))
  ∧ (∀ k output, AccessRoles.outputs roles !! k = Some output →
       ∃ ln, k = ln +:+ "Arn"
             ∧ RoleOutput.Value_GetAtt output = [ln; "Arn"]
             ∧ is_Some (AccessRoles.resources roles !! ln))
  ∧ Forall (λ entry,
              is_Some (AccessRoles.outputs roles
                         !! ResourceExport.roleOutputKey entry.2))
      (AccessRoles.resourceExports roles).
Proof.
  intros [Hl ->]%generateAccessRoles_Returned.
  assert (Hres : ∀ ln,
    is_Some (AccessRoles.resources (foldl (addRole g) noRoles l) !! ln) ↔
    ∃ entry, entry ∈ l ∧ logicalNameOf entry.1 = ln).
  { intros ln. rewrite foldl_addRole_resources.
    rewrite <-(last_filter_is_Some (λ entry, logicalNameOf entry.1 = ln)).
    destruct (last _); cbn [noRoles AccessRoles.resources AccessRoles.outputs];
      [|by rewrite lookup_empty].
    split; intros _; eauto. }
  assert (Hout : ∀ k,
    is_Some (AccessRoles.outputs (foldl (addRole g) noRoles l) !! k) ↔
    ∃ entry, entry ∈ l ∧ outputKeyOf entry.1 = k).
  { intros k. rewrite foldl_addRole_outputs.
    rewrite <-(last_filter_is_Some (λ entry, outputKeyOf entry.1 = k)).
    destruct (last _); cbn [noRoles AccessRoles.resources AccessRoles.outputs];
      [|by rewrite lookup_empty].
    split; intros _; eauto. }
  split; [|split].
  - intros ln. rewrite Hres, Hout. unfold outputKeyOf.
    split; intros (entry & Hin & Hentry); exists entry; split; try done.
    + by rewrite Hentry.
    + by apply string_app_inj_r in Hentry.
  - intros k output. rewrite foldl_addRole_outputs.
    destruct (last _) as [entry|] eqn:Hlast;
      [|cbn [noRoles AccessRoles.outputs]; by rewrite lookup_empty].
    intros [= <-]. apply last_filter_elem in Hlast as [Hin Hk].
    exists (logicalNameOf entry.1). repeat split; [done|].
    apply Hres. eauto.
  - rewrite foldl_addRole_resourceExports. simpl.
    apply Forall_fmap, Forall_forall. intros entry Hin. simpl.
    apply Hout. eauto.
Qed.

Lemma generateAccessRoles_pairs_witness :
  Forall (λ entry,
            is_Some (AccessRoles.outputs
                       (foldl (addRole sampleGenerator) noRoles
                          [pendingCreateOrder])
                       !! ResourceExport.roleOutputKey entry.2))
    (AccessRoles.resourceExports
       (foldl (addRole sampleGenerator) noRoles [pendingCreateOrder])).
Proof.
  apply (generateAccessRoles_pairs sampleGenerator [pendingCreateOrder]).
  reflexivity.
Defined.

Lemma filter_fmap {A B} (f : A → B) (P : B → Prop) `{∀ y, Decision (P y)}
    (l : list A) :
  filter P (f <$> l) = f <$> filter (λ x, P (f x)) l.
Proof.
  induction l as [|x l IH]; [done|].
  cbn [fmap list_fmap]. rewrite !filter_cons, IH. by case_decide.
Qed.

(** X8: the two halves of the plugin fit together.  When
    [generateAccessRoles] has returned and the deployed stack reports an
    output under every output key it declared, then
    [collectAccessRolesArnFromStackOutputs], run on the pending resources it
    handed back, does not throw; and under each stack and resource name the
    manifest has the [arn] and the [description] of the last pending resource
    filed there, with the value of the first output under its declared key as
    [role]. *)
Theorem generateAccessRoles_then_collect (g : AccessRolesGenerator.t)
    (l : list (string * ResourceExport.t)) (roles : AccessRoles.t)
    (stackOutputs : list Output.t) :
  generateAccessRoles g l = Returned roles →
  map_Forall
    (λ k _, Exists (λ output, Output.OutputKey output = Some k) stackOutputs)
    (AccessRoles.outputs roles) →
  ∃ manifest,
    collectAccessRolesArnFromStackOutputs stackOutputs
      (AccessRoles.resourceExports roles) = Returned manifest
    ∧ ∀ stackName name,
        manifest !! stackName ≫= (.!! name) =
          (λ entry,
             {| ResourceOutput.arn := ResourceExport.arn entry.2;
                ResourceOutput.description := ResourceExport.description entry.2;
                ResourceOutput.role :=
                  findOutput stackOutputs (outputKeyOf entry.1)
                    ≫= Output.OutputValue |}) <$>
            last (filter (λ entry, placeOf entry = (stackName, name)) l).
Proof.
  intros Hret Hdeployed.
  pose proof (generateAccessRoles_output_keys g l roles Hret) as Hkeys.
  apply generateAccessRoles_Returned in Hret as [Hl ->].
  rewrite foldl_addRole_resourceExports. simpl.
  assert (Hall : Forall (hasOutput stackOutputs) (withRoleOutputKey <$> l)).
  { apply Forall_fmap, Forall_forall. intros entry Hin.
    destruct (proj2 (Hkeys (outputKeyOf entry.1))) as [output Houtput];
      [by eauto|].
    apply (Hdeployed _ _ Houtput). }
  unfold collectAccessRolesArnFromStackOutputs.
  rewrite forOf_present by done. eexists. split; [done|].
  intros st nm. rewrite foldl_addEntry_lookup, lookup_empty.
  rewrite (filter_fmap withRoleOutputKey), fmap_last.
  by destruct (last _).
Qed.

Lemma generateAccessRoles_then_collect_witness :
  ∃ manifest,
    collectAccessRolesArnFromStackOutputs deployedOutputs
      (AccessRoles.resourceExports
         (foldl (addRole sampleGenerator) noRoles [pendingCreateOrder]))
      = Returned manifest
    ∧ ∀ stackName name,
        manifest !! stackName ≫= (.!! name) =
          (λ entry,
             {| ResourceOutput.arn := ResourceExport.arn entry.2;
                ResourceOutput.description := ResourceExport.description entry.2;
                ResourceOutput.role :=
                  findOutput deployedOutputs (outputKeyOf entry.1)
                    ≫= Output.OutputValue |}) <$>
            last (filter (λ entry, placeOf entry = (stackName, name))
                    [pendingCreateOrder]).
Proof.
  apply (generateAccessRoles_then_collect sampleGenerator).
  - reflexivity.
  - apply (bool_decide_unpack _). vm_compute. exact I.
Defined.

(** ** Logical names that coincide *)

Lemma upcase_idemp c : upcase (upcase c) = upcase c.
Proof. by destruct c as [[] [] [] [] [] [] [] []]. Qed.

Lemma upperFirst_idemp s : upperFirst (upperFirst s) = upperFirst s.
Proof. destruct s; [done|]. simpl. by rewrite upcase_idemp. Qed.

Lemma truthy_upperFirst s : truthy (upperFirst s) = truthy s.
Proof. by destruct s. Qed.

Lemma string_app_assoc (s1 s2 s3 : string) :
  (s1 +:+ s2) +:+ s3 = s1 +:+ s2 +:+ s3.
Proof.
  induction s1 as [|c s1 IH]; [done|].
  change (String c ((s1 +:+ s2) +:+ s3) = String c (s1 +:+ s2 +:+ s3)).
  by rewrite IH.
Qed.

Lemma string_app_nil_r (s : string) : s +:+ "" = s.
Proof.
  induction s as [|c s IH]; [done|].
  change (String c (s +:+ "") = String c s). by rewrite IH.
Qed.

Lemma join_app (l1 l2 : list string) : join (l1 ++ l2) = join l1 +:+ join l2.
Proof.
  unfold join. induction l1 as [|s l1 IH]; [done|].
  cbn [app foldr]. by rewrite IH, string_app_assoc.
Qed.

Lemma upperFirst_app b n : b ≠ "" → upperFirst (b +:+ n) = upperFirst b +:+ n.
Proof. by destruct b. Qed.

(** X9: distinct pending resources can get the same logical name.  The name
    does not tell a name or a type from the same one with its first letter
    in upper case; nor the stack "a-b" with the name [n] from the stack "a"
    with the name "b" followed by [n], when [n] starts with a character that
    upper-casing leaves alone.  And when two accepted keys have the same
    logical name, [generateAccessRoles] declares one role and one output for
    the two: those of the second, the first being replaced without an
    error, and both pending resources get the same [roleOutputKey]. *)
Theorem generateIamRoleResourceLogicalName_collisions
    (g : AccessRolesGenerator.t) :
  (∀ s n t,
     generateIamRoleResourceLogicalName s (upperFirst n) t None =
       generateIamRoleResourceLogicalName s n t None
     ∧ generateIamRoleResourceLogicalName s n (upperFirst t) None =
         generateIamRoleResourceLogicalName s n t None)
  ∧ (∀ a b n t,
       b ≠ "" → contains "-" b = false → n ≠ "" → upperFirst n = n →
       generateIamRoleResourceLogicalName (a +:+ "-" +:+ b) n t None =
         generateIamRoleResourceLogicalName a (b +:+ n) t None)
  ∧ (∀ k1 r1 k2 r2,
       keyAccepted k1 → keyAccepted k2 → logicalNameOf k1 = logicalNameOf k2 →
       generateAccessRoles g [(k1, r1); (k2, r2)] =
         Returned
           {| AccessRoles.resources :=
                {[ logicalNameOf k2 := roleOf g (k2, r2) ]};
              AccessRoles.outputs :=
                {[ outputKeyOf k2 := outputOf (k2, r2) ]};
              AccessRoles.resourceExports :=
                [ (k1, ResourceExport.setRoleOutputKey (outputKeyOf k2) r1);
                  (k2, ResourceExport.setRoleOutputKey (outputKeyOf k2) r2) ]
           |}).
Proof.
  split; [|split].
  - intros s n t. rewrite !generateIamRoleResourceLogicalName_eq.
    rewrite !truthy_upperFirst. unfold logicalName.
    by rewrite !upperFirst_idemp.
  - intros a b n t Hb Hfree Hn Hup.
    rewrite !generateIamRoleResourceLogicalName_eq.
    change (a +:+ "-" +:+ b) with (a +:+ String "-" b).
    rewrite split_app_sep, (split_free _ b) by done.
    rewrite forallb_app. cbn [forallb].
    destruct b as [|cb b']; [done|]. destruct n as [|cn n']; [done|].
    cbn [truthy]. rewrite !andb_true_r.
    unfold logicalName. rewrite split_app_sep, (split_free _ (String cb b')) by done.
    rewrite fmap_app, join_app. cbn [fmap list_fmap join foldr].
    rewrite string_app_nil_r, Hup, upperFirst_app by done.
    by rewrite !string_app_assoc.
  - intros k1 r1 k2 r2 H1 H2 Hsame.
    rewrite generateAccessRoles_foldl
      by (constructor; [exact H1|constructor; [exact H2|constructor]]).
    cbn [foldl]. unfold addRole, noRoles, withRoleOutputKey, outputKeyOf.
    cbn [AccessRoles.resources AccessRoles.outputs
         AccessRoles.resourceExports fst snd app].
    by rewrite Hsame, !insert_insert_eq, !insert_empty.
Qed.

Lemma generateIamRoleResourceLogicalName_collisions_witness :
  generateIamRoleResourceLogicalName ("shop" +:+ "-" +:+ "orders") "Create"
    "function" None =
    generateIamRoleResourceLogicalName "shop" ("orders" +:+ "Create")
      "function" None.
Proof.
  apply (proj1 (proj2 (generateIamRoleResourceLogicalName_collisions
                         sampleGenerator)));
    [discriminate|reflexivity|discriminate|reflexivity].
Defined.

(** ** The template *)

(** X10: [updateServerlessResources] throws a [TypeError] when the service
    has no [resources], and whatever [generateAccessRoles] throws otherwise.
    When [generateAccessRoles] returns, the template gets a [Resources] and
    an [Outputs] section, a missing one counting as empty: each generated
    role and output is declared under its key, replacing what the service
    declared under the same key; every other declaration of the service is
    kept; the other sections of the template are untouched; and one success
    line is logged. *)
Theorem updateServerlessResources_merge {R O X : Type}
    (g : AccessRolesGenerator.t) (l : list (string * ResourceExport.t))
    (service : ServiceResources.t R O X) (log : list logLine) :
  updateServerlessResources (R:=R) (O:=O) (X:=X) g l None log = Threw TypeError
  ∧ (∀ e, generateAccessRoles g l = Threw e →
       updateServerlessResources g l (Some service) log = Threw e)
  ∧ (∀ roles, generateAccessRoles g l = Returned roles →
       ∃ resources outputs,
         updateServerlessResources g l (Some service) log =
           Returned
             (ServiceResources.mk (Some resources) (Some outputs)
                (ServiceResources.others service),
              AccessRoles.resourceExports roles,
              log ++ [LogSuccess "Successfully generate custom access roles!"])
         ∧ (∀ k, resources !! k =
                   match AccessRoles.resources roles !! k with
                   | Some role => Some (inr role)
                   | None =>
                       default ∅ (ServiceResources.Resources service) !! k
                   end)
         ∧ (∀ k, outputs !! k =
                   match AccessRoles.outputs roles !! k with
                   | Some output => Some (inr output)
                   | None => default ∅ (ServiceResources.Outputs service) !! k
                   end)).
Proof.
  split; [done|]. split.
  - intros e He. unfold updateServerlessResources. by rewrite He.
  - intros roles Hroles. unfold updateServerlessResources. rewrite Hroles.
    cbn [mbind completion_bind]. eexists _, _. split; [done|].
    split; intros k; rewrite lookup_union, lookup_fmap.
    + destruct (AccessRoles.resources roles !! k); simpl;
        by destruct (default ∅ (ServiceResources.Resources service) !! k).
    + destruct (AccessRoles.outputs roles !! k); simpl;
        by destruct (default ∅ (ServiceResources.Outputs service) !! k).
Qed.

Lemma updateServerlessResources_merge_witness :
  updateServerlessResources sampleGenerator [("orders", emptyResourceExport)]
    (Some (ServiceResources.mk (R:=string) (O:=string) None None tt)) [] =
    Threw (Error "Incorrect resource export key: orders").
Proof.
  apply (proj1 (proj2 (updateServerlessResources_merge sampleGenerator
                         [("orders", emptyResourceExport)]
                         (ServiceResources.mk (R:=string) (O:=string)
                            None None tt) []))).
  reflexivity.
Defined.

(** ** The export hook *)


(** ** Listing the exports *)

Lemma listExportsLoop_serves request token pages fuel exports :
  serves request token pages →
  listExportsLoop request fuel exports token =
    if decide (length pages ≤ fuel)
    then Some (Returned (exports ++ concat (ListExportData.Exports <$> pages)))
    else None.
Proof.
  intros Hserves. revert fuel exports.
  induction Hserves as [token data Hreq Hnext
                       |token data next pages Hreq Hnext _ IH];
    intros [|fuel] exports; cbn [listExportsLoop length].
  - by rewrite decide_False by lia.
  - rewrite Hreq, Hnext, decide_True by lia.
    cbn [fmap list_fmap concat]. by rewrite app_nil_r.
  - by rewrite decide_False by lia.
  - rewrite Hreq, Hnext, IH. cbn [fmap list_fmap concat].
    rewrite <-app_assoc. by repeat case_decide; try lia.
Qed.


(** X12: when the provider serves a last page after finitely many, then
    [listExports] returns the exports of all the pages, in the order of the
    pages, and logs nothing, as soon as it is allowed as many requests as
    there are pages; with fewer requests the loop is still running. *)
Theorem listExports_pages
    (request : option string → completion (option ListExportData.t))
    (pages : list ListExportData.t) (fuel : nat) (log : list logLine) :
  serves request None pages →
  (length pages ≤ fuel →
   listExports request fuel log =
     Some (log, Returned (concat (ListExportData.Exports <$> pages))))
  ∧ (fuel < length pages → listExports request fuel log = None).
Proof.
  intros Hserves. unfold listExports.
  rewrite (listExportsLoop_serves request None pages) by done.
  split; intros Hfuel.
  - by rewrite decide_True.
  - by rewrite decide_False by lia.
Qed.

Lemma listExports_pages_witness :
  listExports twoPages 2 [] =
    Some ([], Returned [arnExport; foreignExport; descriptionExport]).
Proof.
  assert (Hserves : serves twoPages None
    [ {| ListExportData.Exports := [arnExport; foreignExport];
         ListExportData.NextToken := Some "page-2" |};
      {| ListExportData.Exports := [descriptionExport];
         ListExportData.NextToken := None |} ]).
  { eapply serves_more; [reflexivity..|]. by apply serves_last. }
  apply (proj1 (listExports_pages twoPages _ 2 [] Hserves)).
  simpl. lia.
Defined.



(** X14: the loop of [listExports] has no guard of its own: with a provider
    that answers every request with a page carrying a non-empty token, the
    same one for instance, it is still running after any number of
    requests, and [listExports] neither returns nor throws. *)
Theorem listExports_endless
    (request : option string → completion (option ListExportData.t))
    (fuel : nat) (log : list logLine) :
  (∀ token, ∃ data next,
     request token = Returned (Some data) ∧ nextTokenOf data = Some next) →
  listExports request fuel log = None.
Proof.
  intros Hmore. unfold listExports.
  assert (Hloop : ∀ exports token,
            listExportsLoop request fuel exports token = None).
  { induction fuel as [|fuel IH]; intros exports token; [done|].
    cbn [listExportsLoop].
    destruct (Hmore token) as (data & next & -> & ->). apply IH. }
  by rewrite Hloop.
Qed.

Lemma listExports_endless_witness : listExports sameToken 1000 [] = None.
Proof.
  apply listExports_endless. intros token. by eexists _, _.
Defined.

(** ** The configuration and the discovery of the pending resources *)

(** X15: [initialize] throws a [TypeError], before any request, when the
    service has no [custom.accessRolesGenerator]; it throws what
    [listExports] throws, with the log [listExports] left.  When
    [listExports] returns, it yields the pending resources collected from
    the listed exports under the effective prefix and logs their number; the
    effective prefix is the configured one, or "aser" when none or an empty
    one is configured; the principal's fields are the configured ones; and
    the output directory and file name are "dist/data" and
    "service-outputs.json" whatever is configured, so that [exportToFile]
    writes to that file of the service directory. *)
Theorem initialize_defaults
    (request : option string → completion (option ListExportData.t))
    (fuel : nat) (config : CustomConfig.t) (log : list logLine) :
  initialize request fuel None log = Some (log, Threw TypeError)
  ∧ (∀ log' e,
       listExports request fuel log = Some (log', Threw e) →
       initialize request fuel (Some config) log = Some (log', Threw e))
  ∧ (∀ log' exports,
       listExports request fuel log = Some (log', Returned exports) →
       ∃ g,
         initialize request fuel (Some config) log =
           Some (log' ++
                 [LogSuccess
                    ("Found "
                       +:+ pretty (size (collectResourceExportsByPrefix
                                           (AccessRolesGenerator.exportPrefix g)
                                           exports))
                       +:+ " exports from other stacks!")],
                 Returned (g, collectResourceExportsByPrefix
                                (AccessRolesGenerator.exportPrefix g) exports))
         ∧ AccessRolesGenerator.exportPrefix g =
             match CustomConfig.exportPrefix config with
             | Some p => if decide (p = "") then "aser" else p
             | None => "aser"
             end
         ∧ principalOf g =
             {| PrincipalInfo.principalAccountId :=
                  CustomConfig.principalAccountId config;
                PrincipalInfo.principalRoleName :=
                  CustomConfig.principalRoleName config;
                PrincipalInfo.externalId := CustomConfig.externalId config |}
         ∧ AccessRolesGenerator.outDir g = "dist/data"
         ∧ AccessRolesGenerator.outFilename g = "service-outputs.json"
         ∧ ∀ path_join serviceDir data w,
             (exportToFile path_join serviceDir
                (AccessRolesGenerator.outDir g)
                (AccessRolesGenerator.outFilename g) data w).2 =
               path_join (path_join serviceDir "dist/data")
                 "service-outputs.json").
Proof.
  split; [done|]. split.
  - intros log' e Hlist. unfold initialize. by rewrite Hlist.
  - intros log' exports Hlist. unfold initialize. rewrite Hlist.
    eexists. split; [reflexivity|]. cbn.
    repeat split.
    destruct (CustomConfig.exportPrefix config) as [[|c p]|]; done.
Qed.

Lemma initialize_defaults_witness :
  ∃ g,
    initialize twoPages 2 (Some sampleConfig) [] =
      Some ([] ++
            [LogSuccess
               ("Found "
                  +:+ pretty (size (collectResourceExportsByPrefix
                                      (AccessRolesGenerator.exportPrefix g)
                                      [arnExport; foreignExport;
                                       descriptionExport]))
                  +:+ " exports from other stacks!")],
            Returned (g, collectResourceExportsByPrefix
                           (AccessRolesGenerator.exportPrefix g)
                           [arnExport; foreignExport; descriptionExport]))
    ∧ AccessRolesGenerator.exportPrefix g = "aser"
    ∧ AccessRolesGenerator.outDir g = "dist/data"
    ∧ AccessRolesGenerator.outFilename g = "service-outputs.json".
Proof.
  destruct (proj2 (proj2 (initialize_defaults twoPages 2 sampleConfig []))
              [] [arnExport; foreignExport; descriptionExport])
    as (g & Hinit & Hprefix & _ & Hdir & Hfile & _).
  - reflexivity.
  - exists g. repeat split; done.
Defined.

(** ** Roles without permissions *)

(** X16: a pending resource whose type is neither "function" nor
    "stateMachine" still gets its role and its output: the role's inline
    policy has no statement.  This is what happens for an export with the
    prefix and fewer than three colons in its name: it is collected, and
    the type field of its key is the text "undefined". *)
Theorem generateAccessRoles_unknown_type (g : AccessRolesGenerator.t) :
  (∀ key resource,
     keyAccepted key → typeOf key ≠ "function" → typeOf key ≠ "stateMachine" →
     ∃ roles role,
       generateAccessRoles g [(key, resource)] = Returned roles
       ∧ AccessRoles.resources roles !! logicalNameOf key = Some role
       ∧ RoleProperties.Policies (CloudFormationResource.Properties role) =
           [ {| Policy.PolicyName := "EmbeddedInlinePolicy";
                Policy.PolicyDocument :=
                  {| PolicyDocument.Version := "2012-10-17";
                     PolicyDocument.Statement := [] |} |} ]
       ∧ is_Some (AccessRoles.outputs roles !! outputKeyOf key))
  ∧ (∀ p l1 e l2,
       hasPrefix p e → countChar ":" (StackExport.Name e) < 3 →
       is_Some (collectResourceExportsByPrefix p (l1 ++ e :: l2)
                  !! exportKey e)
       ∧ typeOf (exportKey e) = "undefined").
Proof.
  split.
  - intros key resource Hkey Hf Hs.
    rewrite generateAccessRoles_foldl by (constructor; [done|constructor]).
    eexists _, _. split; [done|].
    cbn [foldl]. unfold addRole, noRoles.
    cbn [AccessRoles.resources AccessRoles.outputs fst].
    rewrite !lookup_insert_eq. split; [done|]. split; [|done].
    unfold roleOf, generateAccessRoleResource, generatePolicyStatementsByType.
    cbn [fst snd CloudFormationResource.Properties RoleProperties.Policies].
    by rewrite !decide_False.
  - intros p l1 e l2 Hp Hcount. split.
    + apply collectResourceExportsByPrefix_is_Some. exists e.
      repeat split; [|done]. apply elem_of_app. right. by left.
    + unfold typeOf. rewrite exportKey_split. cbn [lookup list_lookup toString].
      unfold exportParts, splitExportName. cbn [ExportName.type].
      pose proof (length_split_countChar ":" (StackExport.Name e)) as Hlen.
      rewrite (proj2 (lookup_ge_None _ _)); [done|lia].
Qed.

Lemma generateAccessRoles_unknown_type_witness :
  is_Some (collectResourceExportsByPrefix "aser"
             ([] ++ {| StackExport.ExportingStackId := "stack/3";
                       StackExport.Name := "aser:orders:queue";
                       StackExport.Value := "" |} :: [])
             !! exportKey {| StackExport.ExportingStackId := "stack/3";
                             StackExport.Name := "aser:orders:queue";
                             StackExport.Value := "" |})
  ∧ typeOf (exportKey {| StackExport.ExportingStackId := "stack/3";
                         StackExport.Name := "aser:orders:queue";
                         StackExport.Value := "" |}) = "undefined".
Proof.
  apply (proj2 (generateAccessRoles_unknown_type sampleGenerator) "aser" []).
  - reflexivity.
  - vm_compute. lia.
Defined.

(** ** Collected keys in [generateAccessRoles] *)

Lemma exportKey_two_colons e : countChar ":" (exportKey e) = 2.
Proof.
  pose proof (length_split_countChar ":" (exportKey e)) as Hlen.
  rewrite exportKey_split in Hlen. simpl in Hlen. lia.
Qed.

(** X17: on pending resources whose keys are keys of a map made by
    [collectResourceExportsByPrefix], the arity test of
    [splitResourceExportKey] never fails: [generateAccessRoles] returns when
    every key is accepted, and otherwise throws a [TypeError], never the
    error "Incorrect resource export key".  It does throw for a key whose
    export has an empty stack name, for one. *)
Theorem generateAccessRoles_collected (g : AccessRolesGenerator.t)
    (p : string) (exports : list StackExport.t)
    (l : list (string * ResourceExport.t)) :
  Forall (λ entry,
            is_Some (collectResourceExportsByPrefix p exports !! entry.1)) l →
  (Forall (λ entry, keyAccepted entry.1) l →
   ∃ roles, generateAccessRoles g l = Returned roles)
  ∧ (¬ Forall (λ entry, keyAccepted entry.1) l →
     generateAccessRoles g l = Threw TypeError)
  ∧ (∀ entry, entry ∈ l → stackOf entry.1 = "" →
       generateAccessRoles g l = Threw TypeError).
Proof.
  intros Hkeys.
  assert (Hthrow : ¬ Forall (λ entry, keyAccepted entry.1) l →
                   generateAccessRoles g l = Threw TypeError).
  { intros Hrej.
    apply (first_failure (λ entry, keyAccepted entry.1)) in Hrej
      as (l1 & entry & l2 & -> & Hl1 & Hrej).
    rewrite generateAccessRoles_first_rejected by done.
    apply Forall_app in Hkeys as [_ Hkeys].
    apply Forall_cons in Hkeys as [Hentry _].
    apply collectResourceExportsByPrefix_is_Some in Hentry
      as (e & _ & _ & Hkey).
    unfold rejection. by rewrite <-Hkey, exportKey_two_colons, decide_True. }
  split; [|split; [done|]].
  - intros Hl. eexists. by apply generateAccessRoles_foldl.
  - intros entry Hin Hstack. apply Hthrow. intros Hall.
    rewrite Forall_forall in Hall.
    destruct (Hall entry Hin) as (_ & Hsegments & _).
    apply Hsegments. rewrite Hstack. by left.
Qed.

Lemma generateAccessRoles_collected_witness :
  generateAccessRoles sampleGenerator [(":createOrder:function", emptyResourceExport)]
    = Threw TypeError.
Proof.
  assert (Hkeys : Forall (λ entry : string * ResourceExport.t,
    is_Some (collectResourceExportsByPrefix "aser"
               [ {| StackExport.ExportingStackId := "stack/4";
                    StackExport.Name := "aser::createOrder:function:arn";
                    StackExport.Value := "" |} ] !! entry.1))
    [(":createOrder:function", emptyResourceExport)]).
  { apply (bool_decide_unpack _). vm_compute. exact I. }
  apply (proj1 (proj2 (generateAccessRoles_collected sampleGenerator "aser"
                         _ _ Hkeys))).
  apply (bool_decide_unpack _). vm_compute. exact I.
Defined.

Lemma filter_none {A} (P : A → Prop) `{∀ x, Decision (P x)} (l : list A) :
  Forall (λ x, ¬ P x) l → filter P l = [].
Proof.
  induction 1 as [|x l Hx _ IH]; [done|].
  by rewrite filter_cons, decide_False.
Qed.

(** X18: a resource known by its "description" export alone is pending
    with the empty string as [arn]; and for the type "function"
    [generateAccessRoles] then declares a role whose one statement allows
    [lambda:InvokeFunction] on the empty string. *)
Theorem collectResourceExportsByPrefix_no_arn (p : string)
    (exports : list StackExport.t) (k : string) (r : ResourceExport.t)
    (g : AccessRolesGenerator.t) :
  collectResourceExportsByPrefix p exports !! k = Some r →
  Forall (λ e, ¬ (exportField e = Some "arn"
                  ∧ hasPrefix p e ∧ exportKey e = k)) exports →
  ResourceExport.arn r = ""
  ∧ (keyAccepted k → typeOf k = "function" →
     ∃ roles role,
       generateAccessRoles g [(k, r)] = Returned roles
       ∧ AccessRoles.resources roles !! logicalNameOf k = Some role
       ∧ RoleProperties.Policies (CloudFormationResource.Properties role) =
           [ {| Policy.PolicyName := "EmbeddedInlinePolicy";
                Policy.PolicyDocument :=
                  {| PolicyDocument.Version := "2012-10-17";
                     PolicyDocument.Statement :=
                       [ {| IamRoleStatement.Effect := "Allow";
                            IamRoleStatement.Action := ["lambda:InvokeFunction"];
                            IamRoleStatement.Resource := One (Arn "") |} ]
                  |} |} ]).
Proof.
  intros Hr Hnone.
  assert (Harn : ResourceExport.arn r = "").
  { rewrite collectResourceExportsByPrefix_lookup in Hr.
    apply pendingOf_Some in Hr as (-> & _ & _).
    unfold fieldValue, relevant.
    by rewrite list_filter_filter, filter_none. }
  split; [done|]. intros Hkey Htype.
  rewrite generateAccessRoles_foldl by (constructor; [done|constructor]).
  eexists _, _. split; [done|].
  cbn [foldl]. unfold addRole, noRoles. cbn [AccessRoles.resources fst].
  rewrite lookup_insert_eq. split; [done|].
  unfold roleOf, generateAccessRoleResource, generatePolicyStatementsByType.
  cbn [fst snd CloudFormationResource.Properties RoleProperties.Policies].
  by rewrite Htype, Harn.
Qed.

Lemma collectResourceExportsByPrefix_no_arn_witness :
  ∃ roles role,
    generateAccessRoles sampleGenerator
      [("orders:createOrder:function",
        {| ResourceExport.arn := ""; ResourceExport.description := "desc";
           ResourceExport.roleOutputKey := "" |})] = Returned roles
    ∧ AccessRoles.resources roles
        !! logicalNameOf "orders:createOrder:function" = Some role
    ∧ RoleProperties.Policies (CloudFormationResource.Properties role) =
        [ {| Policy.PolicyName := "EmbeddedInlinePolicy";
             Policy.PolicyDocument :=
               {| PolicyDocument.Version := "2012-10-17";
                  PolicyDocument.Statement :=
                    [ {| IamRoleStatement.Effect := "Allow";
                         IamRoleStatement.Action := ["lambda:InvokeFunction"];
                         IamRoleStatement.Resource := One (Arn "") |} ]
               |} |} ].
Proof.
  apply (proj2 (collectResourceExportsByPrefix_no_arn "aser"
                  [descriptionExport] "orders:createOrder:function"
                  {| ResourceExport.arn := "";
                     ResourceExport.description := "desc";
                     ResourceExport.roleOutputKey := "" |} sampleGenerator
                  eq_refl
                  ltac:(apply (bool_decide_unpack _); vm_compute; exact I))).
  - apply (bool_decide_unpack _). vm_compute. exact I.
  - reflexivity.
Defined.

(** ** Role names *)

(** X19: the name and the description of a role are made of the stack and
    the resource name alone.  Two accepted keys with the same stack and name
    and different logical names (they differ by their types) make
    [generateAccessRoles] declare two roles, under the two logical names,
    with the same [RoleName] and the same [Description]. *)
Theorem generateAccessRoles_same_RoleName (g : AccessRolesGenerator.t)
    (k1 k2 : string) (r1 r2 : ResourceExport.t) :
  keyAccepted k1 → keyAccepted k2 →
  stackOf k1 = stackOf k2 → nameOf k1 = nameOf k2 →
  logicalNameOf k1 ≠ logicalNameOf k2 →
  ∃ roles role1 role2,
    generateAccessRoles g [(k1, r1); (k2, r2)] = Returned roles
    ∧ AccessRoles.resources roles !! logicalNameOf k1 = Some role1
    ∧ AccessRoles.resources roles !! logicalNameOf k2 = Some role2
    ∧ size (AccessRoles.resources roles) = 2
    ∧ RoleProperties.RoleName (CloudFormationResource.Properties role1) =
        stackOf k1 +:+ "-" +:+ nameOf k1
    ∧ RoleProperties.RoleName (CloudFormationResource.Properties role2) =
        RoleProperties.RoleName (CloudFormationResource.Properties role1)
    ∧ RoleProperties.Description (CloudFormationResource.Properties role2) =
        RoleProperties.Description (CloudFormationResource.Properties role1).
Proof.
  intros H1 H2 Hstack Hname Hdiff.
  rewrite generateAccessRoles_foldl
    by (constructor; [exact H1|constructor; [exact H2|constructor]]).
  eexists _, _, _. split; [done|].
  cbn [foldl]. unfold addRole, noRoles. cbn [AccessRoles.resources fst].
  rewrite lookup_insert_ne, !lookup_insert_eq by done.
  split; [done|]. split; [done|]. split.
  - rewrite !map_size_insert_None; [done|apply lookup_empty|].
    by rewrite lookup_insert_ne, lookup_empty.
  - unfold roleOf, generateAccessRoleResource. cbn. by rewrite Hstack, Hname.
Qed.

Lemma generateAccessRoles_same_RoleName_witness :
  ∃ roles role1 role2,
    generateAccessRoles sampleGenerator
      [("orders:flow:function", emptyResourceExport);
       ("orders:flow:stateMachine", emptyResourceExport)] = Returned roles
    ∧ AccessRoles.resources roles !! logicalNameOf "orders:flow:function"
        = Some role1
    ∧ AccessRoles.resources roles !! logicalNameOf "orders:flow:stateMachine"
        = Some role2
    ∧ size (AccessRoles.resources roles) = 2
    ∧ RoleProperties.RoleName (CloudFormationResource.Properties role1) =
        stackOf "orders:flow:function" +:+ "-" +:+ nameOf "orders:flow:function"
    ∧ RoleProperties.RoleName (CloudFormationResource.Properties role2) =
        RoleProperties.RoleName (CloudFormationResource.Properties role1)
    ∧ RoleProperties.Description (CloudFormationResource.Properties role2) =
        RoleProperties.Description (CloudFormationResource.Properties role1).
Proof.
  apply generateAccessRoles_same_RoleName.
  - apply (bool_decide_unpack _). vm_compute. exact I.
  - apply (bool_decide_unpack _). vm_compute. exact I.
  - reflexivity.
  - reflexivity.
  - apply (bool_decide_unpack _). vm_compute. exact I.
Defined.
